(** * real-time-map-frontend: presence reconciliation, geolocation and focus

    A shallow embedding of the client logic of the live map: the socket
    endpoint resolution ([lib/socket]), the handlers and derived state of
    the [App] component, and the focus effect of [LiveMap].

    Conventions:
    - a JS [Set<string>] is a [gset string], a [Map<string, LiveUser>] a
      [gmap string LiveUser]; arrays are lists;
    - [Date.now()] readings, error codes, watch handles and the durations
      in the watch options are integers ([Z]);
    - coordinates and the zoom level are IEEE-754 doubles ([spec_float]);
    - React state is a record, every handler a function on it; what the
      platform supplies (clock reading, [socket.id], URL parser) is an
      argument of the handler that reads it. *)

From Stdlib Require Import ZArith SpecFloat Ascii String.
From stdpp Require Import gmap strings list fin_maps.

Set Warnings "-clear-no-such-hyp".

Open Scope string_scope.
Open Scope list_scope.
Open Scope Z_scope.

(** ** Data model ([types.ts]) *)

(** A JS [number] holding a coordinate or a zoom level. *)
Definition number : Type := spec_float.

Record LocationUpdate : Type := mkLocationUpdate {
  lu_lat : number;
  lu_lng : number
}.

Record LiveUser : Type := mkLiveUser {
  id : string;
  lat : number;
  lng : number;
  updatedAt : Z
}.

(** [users.map((u) => u.id)] *)
Definition ids (users : list LiveUser) : list string := id <$> users.

(** ** Presence reconciler: the [setUserOrder] effect *)

Module Reconciler.

(** The [for (const user of users)] loop of the effect: [known] and
    [additions] are the two variables it updates. *)
Definition addition_step (st : gset string * list string) (user : LiveUser)
  : gset string * list string :=
  let '(known, additions) := st in
  if bool_decide (id user ∈ known) then (known, additions)
  else ({[ id user ]} ∪ known, additions ++ [id user]).

Definition additions_loop (known : gset string) (users : list LiveUser)
  : gset string * list string :=
  foldl addition_step (known, []) users.

(** The updater passed to [setUserOrder]: [prev] is the previous display
    order, [users] the roster the effect was run for. *)
Definition reconcile (prev : list string) (users : list LiveUser) : list string :=
  let activeIds : gset string := list_to_set (ids users) in
  let kept := filter (λ i, i ∈ activeIds) prev in
  let known : gset string := list_to_set kept in
  let additions := snd (additions_loop known users) in
  kept ++ additions.

(** The order after a sequence of roster snapshots, starting from the
    initial state [useState<string[]>([])]. *)
Definition reconcile_all (snapshots : list (list LiveUser)) : list string :=
  foldl reconcile [] snapshots.

(** The roster held after a sequence of snapshots ([useState<LiveUser[]>([])]
    before the first one). *)
Definition latest (snapshots : list (list LiveUser)) : list LiveUser :=
  default [] (last snapshots).

(** *** The contract, in the words of the specification *)

(** The first occurrence of every element, in order of appearance. *)
Fixpoint first_occurrences (l : list string) : list string :=
  match l with
  | [] => []
  | x :: l' => x :: filter (λ y, y ≠ x) (first_occurrences l')
  end.

(** Drop the ids absent from the snapshot, keep the others in their
    previous order, append the snapshot's new ids in snapshot order. *)
Definition reconcile_spec (prev : list string) (users : list LiveUser) : list string :=
  filter (λ i, i ∈ ids users) prev
  ++ first_occurrences (filter (λ i, i ∉ prev) (ids users)).

End Reconciler.

(** ** The derived display list: the [orderedUsers] memo *)

Module Display.

(** [new Map(users.map((u) => [u.id, u]))]: entries are set in order, so a
    later entry with the same key replaces an earlier one. *)
Definition byId (users : list LiveUser) : gmap string LiveUser :=
  foldl (λ m u, <[ id u := u ]> m) ∅ users.

(** [userOrder.map((id) => byId.get(id)).filter(Boolean)] *)
Definition lookup_ordered (users : list LiveUser) (userOrder : list string)
  : list LiveUser :=
  omap (λ i, byId users !! i) userOrder.

Definition orderedUsers (users : list LiveUser) (userOrder : list string)
  : list LiveUser :=
  let ordered := lookup_ordered users userOrder in
  if bool_decide (length ordered = length users) then ordered
  else
    let existing : gset string := list_to_set (ids ordered) in
    ordered ++ filter (λ u, id u ∉ existing) users.

End Display.

(** ** The roster: the [users:update] handler and the effect it triggers *)

Module Roster.

(** What arrives on the wire before any validation. *)
Inductive Payload : Type :=
  | PUndefined
  | PNull
  | PBoolean (b : bool)
  | PNumber (n : number)
  | PString (s : string)
  | PObject (fields : list (string * string))
  | PArray (items : list LiveUser).

Definition Array_isArray (p : Payload) : bool :=
  match p with PArray _ => true | _ => false end.

Record State : Type := mkState {
  users : list LiveUser;
  userOrder : list string
}.

Definition initial : State := {| users := []; userOrder := [] |}.

(** The [handler] registered for ["users:update"]. *)
Definition handler (payload : Payload) (st : State) : State :=
  match payload with
  | PArray items => {| users := items; userOrder := userOrder st |}
  | _ => st
  end.

(** The effect with dependency [[users]]. *)
Definition order_effect (st : State) : State :=
  {| users := users st;
     userOrder := Reconciler.reconcile (userOrder st) (users st) |}.

(** One delivery of ["users:update"]: the handler, then, when it stored a
    new array, the render that runs the effect. *)
Definition deliver (st : State) (payload : Payload) : State :=
  if Array_isArray payload then order_effect (handler payload st)
  else handler payload st.


End Roster.

(** ** Endpoint resolution ([resolveSocketUrl]) *)

Module Endpoint.

(** What the code reads of a parsed [URL]. *)
Record URL : Type := mkURL {
  url_hostname : string;
  url_toString : string
}.

(** What the code reads of [window.location]. *)
Record Location : Type := mkLocation {
  origin : string;
  hostname : string
}.

Section Resolve.
(** [String.prototype.trim]. *)
Variable trim : string → string.
(** [new URL(s)]: [None] when the constructor throws. *)
Variable parseURL : string → option URL.

Definition isLocalhost (parsed : URL) : bool :=
  bool_decide (url_hostname parsed = "localhost")
  || bool_decide (url_hostname parsed = "127.0.0.1")
  || bool_decide (url_hostname parsed = "::1").

(** [VITE_SOCKET_URL] is the configured value ([None]: not set);
    [window] is [None] outside a browser. *)
Definition resolveSocketUrl (VITE_SOCKET_URL : option string)
    (window : option Location) : string :=
  let envUrl := trim <$> VITE_SOCKET_URL in
  let fallbackUrl :=
    match window with
    | None => "http://localhost:3001"
    | Some location => origin location
    end in
  match envUrl with
  | None => fallbackUrl
  | Some envUrl =>
    if bool_decide (envUrl = "") then fallbackUrl
    else
      match parseURL envUrl with
      | Some parsed =>
        match window with
        | Some location =>
          if isLocalhost parsed
             && bool_decide (hostname location ≠ "localhost")
             && bool_decide (hostname location ≠ "127.0.0.1")
          then origin location
          else url_toString parsed
        | None => url_toString parsed
        end
      | None => envUrl
      end
  end.

(** The value the code calls [envUrl], when one is configured. *)
Definition configured (VITE_SOCKET_URL : option string) : option string :=
  match trim <$> VITE_SOCKET_URL with
  | Some s => if bool_decide (s = "") then None else Some s
  | None => None
  end.
End Resolve.

(** The loopback addresses the specification lists. *)
Definition loopback (h : string) : Prop :=
  h = "localhost" ∨ h = "127.0.0.1" ∨ h = "::1".

(** The page hosts the code takes for the local device. *)
Definition local_page (h : string) : Prop :=
  h = "localhost" ∨ h = "127.0.0.1".

(** A trim for strings without surrounding white space, and a parser that
    agrees with the platform's on the two URLs it knows; they serve to run
    [resolveSocketUrl] on concrete inputs. *)
Definition is_space (c : ascii) : bool :=
  bool_decide (c ∈ [" "%char; "009"%char; "010"%char; "011"%char;
                     "012"%char; "013"%char]).

Fixpoint trim_start (s : string) : string :=
  match s with
  | String c s' => if is_space c then trim_start s' else s
  | EmptyString => EmptyString
  end.

Definition ascii_trim (s : string) : string :=
  String.rev (trim_start (String.rev (trim_start s))).

Definition sample_parseURL (s : string) : option URL :=
  if bool_decide (s = "http://localhost:3001")
  then Some {| url_hostname := "localhost";
               url_toString := "http://localhost:3001/" |}
  else if bool_decide (s = "https://map.example.org")
  then Some {| url_hostname := "map.example.org";
               url_toString := "https://map.example.org/" |}
  else None.

(** The same parser with a third URL: as the platform does, it reports the
    host of an IPv6 URL between brackets. *)
Definition ipv6_parseURL (s : string) : option URL :=
  if bool_decide (s = "http://[::1]:3001")
  then Some {| url_hostname := "[::1]";
               url_toString := "http://[::1]:3001/" |}
  else sample_parseURL s.

End Endpoint.

(** ** Geolocation acquisition: the [watchPosition] effect *)

Module Geo.

Record PositionOptions : Type := mkOptions {
  enableHighAccuracy : bool;
  timeout : Z;
  maximumAge : Z
}.

Record GeolocationPositionError : Type := mkError {
  code : Z;
  message : string
}.

(** The calls made on [navigator.geolocation]. *)
Inductive GeoCall : Type :=
  | WatchPosition (handle : Z) (options : PositionOptions)
  | ClearWatch (handle : Z).

(** [navigator.geolocation]: the handle the next watch gets, the watches
    that are active, and the calls received so far. *)
Record Navigator : Type := mkNavigator {
  next_handle : Z;
  watches : gmap Z PositionOptions;
  calls : list GeoCall
}.

Definition watchPosition (options : PositionOptions) (nav : Navigator)
  : Z * Navigator :=
  (next_handle nav,
   {| next_handle := next_handle nav + 1;
      watches := <[ next_handle nav := options ]> (watches nav);
      calls := calls nav ++ [WatchPosition (next_handle nav) options] |}).

Definition clearWatch (handle : Z) (nav : Navigator) : Navigator :=
  {| next_handle := next_handle nav;
     watches := delete handle (watches nav);
     calls := calls nav ++ [ClearWatch handle] |}.

(** The state the effect and its callbacks read and write: React state
    ([me], [geoError], [isGeoRetrying]), refs ([lastSentAt],
    [geoRetryTimeoutRef]), the variables of the effect's closure ([watchId],
    [fallbackMode]) and the platform ([navigator], the pending timers, the
    messages handed to [socket.emit]). *)
Record State : Type := mkState {
  me : option LocationUpdate;
  geoError : option string;
  isGeoRetrying : bool;
  geoRetryTimeoutRef : option Z;
  lastSentAt : Z;
  watchId : Z;
  fallbackMode : bool;
  navigator : Navigator;
  pendingTimeouts : gset Z;
  emitted : list LocationUpdate
}.

Definition setMe (v : option LocationUpdate) (s : State) : State :=
  mkState v (geoError s) (isGeoRetrying s) (geoRetryTimeoutRef s)
    (lastSentAt s) (watchId s) (fallbackMode s) (navigator s)
    (pendingTimeouts s) (emitted s).

Definition setGeoError (v : option string) (s : State) : State :=
  mkState (me s) v (isGeoRetrying s) (geoRetryTimeoutRef s)
    (lastSentAt s) (watchId s) (fallbackMode s) (navigator s)
    (pendingTimeouts s) (emitted s).

Definition setIsGeoRetrying (v : bool) (s : State) : State :=
  mkState (me s) (geoError s) v (geoRetryTimeoutRef s)
    (lastSentAt s) (watchId s) (fallbackMode s) (navigator s)
    (pendingTimeouts s) (emitted s).

Definition set_geoRetryTimeoutRef (v : option Z) (s : State) : State :=
  mkState (me s) (geoError s) (isGeoRetrying s) v
    (lastSentAt s) (watchId s) (fallbackMode s) (navigator s)
    (pendingTimeouts s) (emitted s).

Definition set_lastSentAt (v : Z) (s : State) : State :=
  mkState (me s) (geoError s) (isGeoRetrying s) (geoRetryTimeoutRef s)
    v (watchId s) (fallbackMode s) (navigator s)
    (pendingTimeouts s) (emitted s).

Definition set_watchId (v : Z) (s : State) : State :=
  mkState (me s) (geoError s) (isGeoRetrying s) (geoRetryTimeoutRef s)
    (lastSentAt s) v (fallbackMode s) (navigator s)
    (pendingTimeouts s) (emitted s).

Definition set_fallbackMode (v : bool) (s : State) : State :=
  mkState (me s) (geoError s) (isGeoRetrying s) (geoRetryTimeoutRef s)
    (lastSentAt s) (watchId s) v (navigator s)
    (pendingTimeouts s) (emitted s).

Definition set_navigator (v : Navigator) (s : State) : State :=
  mkState (me s) (geoError s) (isGeoRetrying s) (geoRetryTimeoutRef s)
    (lastSentAt s) (watchId s) (fallbackMode s) v
    (pendingTimeouts s) (emitted s).

Definition set_pendingTimeouts (v : gset Z) (s : State) : State :=
  mkState (me s) (geoError s) (isGeoRetrying s) (geoRetryTimeoutRef s)
    (lastSentAt s) (watchId s) (fallbackMode s) (navigator s)
    v (emitted s).

(** [socket.emit("location:update", payload)] *)
Definition socket_emit (payload : LocationUpdate) (s : State) : State :=
  mkState (me s) (geoError s) (isGeoRetrying s) (geoRetryTimeoutRef s)
    (lastSentAt s) (watchId s) (fallbackMode s) (navigator s)
    (pendingTimeouts s) (emitted s ++ [payload]).

Definition geolocationErrorMessage (err : GeolocationPositionError) : string :=
  if bool_decide (code err = 1) then "Permissão de geolocalização negada."
  else if bool_decide (code err = 2) then "Sinal de geolocalização indisponível."
  else if bool_decide (code err = 3) then "Timeout expired. A tentar novamente..."
  else if bool_decide (message err = "") then "Erro ao obter localização."
  else message err.

(** [getInitialGeoError], in a browser. *)
Definition getInitialGeoError (supported secure : bool) : option string :=
  if negb supported then Some "Geolocalização não suportada."
  else if negb secure
  then Some "Geolocalização requer HTTPS (ou localhost no mesmo dispositivo)."
  else None.

(** The notice shown while the watch is restarted with relaxed options. *)
Definition downgrade_notice : string :=
  "Timeout expired. A tentar modo de localização padrão...".

(** [if (geoRetryTimeoutRef.current !== null) { clearTimeout(...); ... = null }] *)
Definition clearRetryTimeout (s : State) : State :=
  match geoRetryTimeoutRef s with
  | Some h =>
    set_geoRetryTimeoutRef None (set_pendingTimeouts (pendingTimeouts s ∖ {[ h ]}) s)
  | None => s
  end.

(** [startWatch(enableHighAccuracy, timeout, maximumAge)] *)
Definition startWatch (h : bool) (t m : Z) (s : State) : State :=
  let '(handle, nav) :=
    watchPosition {| enableHighAccuracy := h; maximumAge := m; timeout := t |}
      (navigator s) in
  set_watchId handle (set_navigator nav s).

(** The success callback of the watch; [now] is the reading of
    [Date.now()] it takes. *)
Definition onPosition (now : Z) (lat lng : number) (s : State) : State :=
  let s := setMe (Some {| lu_lat := lat; lu_lng := lng |}) s in
  let s := setGeoError
             (match geoError s with
              | Some current => if bool_decide (current = "") then Some current else None
              | None => None
              end) s in
  let s := setIsGeoRetrying false s in
  let s := clearRetryTimeout s in
  if bool_decide (now - lastSentAt s < 2000) then s
  else
    let s := set_lastSentAt now s in
    socket_emit {| lu_lat := lat; lu_lng := lng |} s.

(** The error callback of the watch. *)
Definition onPositionError (err : GeolocationPositionError) (s : State) : State :=
  if bool_decide (code err = 3) && negb (fallbackMode s) then
    let s := set_fallbackMode true s in
    let s := setGeoError (Some downgrade_notice) s in
    let s := set_navigator (clearWatch (watchId s) (navigator s)) s in
    startWatch false 30000 15000 s
  else
    let s := setGeoError (Some (geolocationErrorMessage err)) s in
    let s := setIsGeoRetrying false s in
    clearRetryTimeout s.

(** The body of the effect: one activation. *)
Definition activate (supported secure : bool) (s : State) : State :=
  if negb supported || negb secure then s
  else
    let s := set_watchId (-1) s in
    let s := set_fallbackMode false s in
    startWatch true 20000 3000 s.

(** The cleanup the effect returns. *)
Definition cleanup (s : State) : State :=
  if bool_decide (watchId s ≠ -1)
  then set_navigator (clearWatch (watchId s) (navigator s)) s
  else s.

(** The component's state at mount, over a platform [nav]. *)
Definition initial (supported secure : bool) (nav : Navigator) : State :=
  {| me := None;
     geoError := getInitialGeoError supported secure;
     isGeoRetrying := false;
     geoRetryTimeoutRef := None;
     lastSentAt := 0;
     watchId := -1;
     fallbackMode := false;
     navigator := nav;
     pendingTimeouts := ∅;
     emitted := [] |}.

(** What the watch reports. *)
Inductive Event : Type :=
  | Position (now : Z) (lat lng : number)
  | PositionError (err : GeolocationPositionError).

Definition step (s : State) (ev : Event) : State :=
  match ev with
  | Position now lat lng => onPosition now lat lng s
  | PositionError err => onPositionError err s
  end.

Definition run (s : State) (evs : list Event) : State := foldl step s evs.

(** The event is an error with [err.code === 3]. *)
Definition is_timeout (ev : Event) : bool :=
  match ev with
  | PositionError err => bool_decide (code err = 3)
  | Position _ _ _ => false
  end.

(** The two tiers of options. *)
Definition high_accuracy_tier : PositionOptions :=
  {| enableHighAccuracy := true; timeout := 20000; maximumAge := 3000 |}.

Definition fallback_tier : PositionOptions :=
  {| enableHighAccuracy := false; timeout := 30000; maximumAge := 15000 |}.

(** The options of the watch the closure holds. *)
Definition current_options (s : State) : option PositionOptions :=
  watches (navigator s) !! watchId s.

(** The options of the watches started, in order, and the handles of the
    watches cleared, read off the calls. *)
Definition started (cs : list GeoCall) : list PositionOptions :=
  omap (λ c, match c with WatchPosition _ o => Some o | ClearWatch _ => None end) cs.

Definition cleared (cs : list GeoCall) : list Z :=
  omap (λ c, match c with ClearWatch h => Some h | WatchPosition _ _ => None end) cs.

(** *** The throttle, in the words of the specification *)

(** A sample: its timestamp and its coordinates. *)
Definition Sample : Type := Z * LocationUpdate.

Definition sample_event (x : Sample) : Event :=
  Position x.1 (lu_lat x.2) (lu_lng x.2).

(** A sample is transmitted when none was before or when at least 2000 ms
    have elapsed since the last transmitted one; [prev] is the timestamp of
    the last transmitted sample. *)
Fixpoint transmitted (prev : option Z) (samples : list Sample)
  : list LocationUpdate :=
  match samples with
  | [] => []
  | (t, p) :: rest =>
    match prev with
    | None => p :: transmitted (Some t) rest
    | Some t0 =>
      if bool_decide (2000 ≤ t - t0) then p :: transmitted (Some t) rest
      else transmitted prev rest
    end
  end.

End Geo.

(** ** Focus selection ([focusOnUser]) *)

Module Focus.

Record MapFocusTarget : Type := mkTarget {
  ft_lat : number;
  ft_lng : number;
  key : Z
}.

Record State : Type := mkState {
  mapFocusTarget : option MapFocusTarget;
  focusedUserId : option string
}.

Definition initial : State :=
  {| mapFocusTarget := None; focusedUserId := None |}.

(** [socket_id] is [socket.id] ([None]: undefined, not connected); [now]
    is the reading of [Date.now()] taken for the key. *)
Definition focusOnUser (socket_id : option string) (now : Z) (user : LiveUser)
    (st : State) : State :=
  if bool_decide (Some (id user) = socket_id) then st
  else
    {| focusedUserId := Some (id user);
       mapFocusTarget :=
         Some {| ft_lat := lat user; ft_lng := lng user; key := now |} |}.


End Focus.

(** ** The map surface: the focus effect of [LiveMap] *)

Module MapSurface.

Definition prec : Z := 53.
Definition emax : Z := 1024.

(** The doubles the component names. *)
Definition num_0 : number := S754_zero false.
Definition num_13 : number := S754_finite false 7318349394477056 (-49).
Definition num_15 : number := S754_finite false 8444249301319680 (-49).
(** 32.5892 and -25.9653 *)
Definition maputo_lng : number := S754_finite false 4586522155509455 (-47).
Definition maputo_lat : number := S754_finite true 7308582212785196 (-48).

Definition is_nan (x : number) : bool :=
  match x with S754_nan => true | _ => false end.

(** [Math.max] on two numbers: NaN when either is, else the larger, with
    [+0] above [-0]. *)
Definition Math_max (a b : number) : number :=
  if is_nan a || is_nan b then S754_nan
  else
    match SFcompare a b with
    | Some Lt => b
    | Some Gt => a
    | _ => match a with S754_zero true => b | _ => a end
    end.


Record Viewport : Type := mkViewport {
  center : number * number;
  zoom : number;
  bearing : number;
  pitch : number
}.

Definition initial_viewport : Viewport :=
  {| center := (maputo_lng, maputo_lat);
     zoom := num_13; bearing := num_0; pitch := num_0 |}.

(** The updater the effect passes to [setViewport]. *)
Definition recenter (focusTarget : Focus.MapFocusTarget) (v : Viewport) : Viewport :=
  {| center := (Focus.ft_lng focusTarget, Focus.ft_lat focusTarget);
     zoom := Math_max (zoom v) num_15;
     bearing := bearing v;
     pitch := pitch v |}.

(** The body of the effect. *)
Definition focus_effect (focusTarget : option Focus.MapFocusTarget)
    (v : Viewport) : Viewport :=
  match focusTarget with
  | None => v
  | Some t => recenter t v
  end.

(** The effect's dependency, [focusTarget?.key]. *)
Definition dependency (focusTarget : option Focus.MapFocusTarget) : option Z :=
  Focus.key <$> focusTarget.

(** The component between renders: its viewport and the dependency value
    of the last render. *)
Record State : Type := mkState {
  viewport : Viewport;
  last_key : option Z
}.

(** The first render runs the effect. *)
Definition mount (focusTarget : option Focus.MapFocusTarget) : State :=
  {| viewport := focus_effect focusTarget initial_viewport;
     last_key := dependency focusTarget |}.

(** A later render runs it when the dependency changed. *)
Definition render (focusTarget : option Focus.MapFocusTarget) (st : State) : State :=
  if bool_decide (dependency focusTarget = last_key st) then st
  else {| viewport := focus_effect focusTarget (viewport st);
          last_key := dependency focusTarget |}.

End MapSurface.

(** ** Sample data for the worked examples *)

Module Sample.

(** A participant with the given id, at the origin. *)
Definition user (i : string) : LiveUser :=
  {| id := i; lat := S754_zero false; lng := S754_zero false; updatedAt := 0 |}.

Definition here : LocationUpdate :=
  {| lu_lat := MapSurface.maputo_lat; lu_lng := MapSurface.maputo_lng |}.

Definition nav : Geo.Navigator :=
  {| Geo.next_handle := 1; Geo.watches := ∅; Geo.calls := [] |}.

(** An epoch-millisecond reading of the clock. *)
Definition clock : Z := 1767225600000.

Definition timeout_error : Geo.GeolocationPositionError :=
  {| Geo.code := 3; Geo.message := "Timeout expired" |}.

End Sample.

(** ** The markers of [LiveMap] *)

Module Markers.

(** [users.filter((u) => u.id !== socket.id)], memoised on [[users]]:
    [socket_id] is [socket.id] as it was read when the roster last
    changed. *)
Definition otherUsers (socket_id : option string) (users : list LiveUser)
  : list LiveUser :=
  filter (λ u, Some (id u) ≠ socket_id) users.

(** What the map draws: the local marker, and one marker per other
    participant, highlighted when [focusedUserId === u.id]. *)
Inductive Marker : Type :=
  | SelfMarker (longitude latitude : number)
  | UserMarker (u : LiveUser) (focused : bool).

Definition user_marker (focusedUserId : option string) (u : LiveUser) : Marker :=
  UserMarker u (bool_decide (focusedUserId = Some (id u))).

Definition markers (me : option LocationUpdate) (users : list LiveUser)
    (focusedUserId socket_id : option string) : list Marker :=
  match me with
  | Some p => [SelfMarker (lu_lng p) (lu_lat p)]
  | None => []
  end
  ++ (user_marker focusedUserId <$> otherUsers socket_id users).

Definition is_focused (m : Marker) : bool :=
  match m with
  | UserMarker _ focused => focused
  | SelfMarker _ _ => false
  end.

(** A sequence of selections, each with the clock reading it takes. *)
Definition select_all (socket_id : option string) (st : Focus.State)
    (selections : list (Z * LiveUser)) : Focus.State :=
  foldl (λ s x, Focus.focusOnUser socket_id x.1 x.2 s) st selections.

(** A sequence of renders of the map, each with the focus target it is
    given. *)
Definition render_all (st : MapSurface.State)
    (targets : list (option Focus.MapFocusTarget)) : MapSurface.State :=
  foldl (λ s t, MapSurface.render t s) st targets.

End Markers.

(** ** The theme: [getInitialThemeMode], the theme effect, [main.tsx] *)

Module Theme.

Inductive Mode : Type := light | dark.

Definition mode_name (m : Mode) : string :=
  match m with light => "light" | dark => "dark" end.

(** What the code touches of the page: the classes and the colour scheme
    of [document.documentElement], and [window.localStorage]. *)
Record Page : Type := mkPage {
  classList : gset string;
  colorScheme : string;
  localStorage : gmap string string
}.

(** [classList.toggle(name, force)] *)
Definition classList_toggle (name : string) (force : bool) (cl : gset string)
  : gset string :=
  if force then {[ name ]} ∪ cl else cl ∖ {[ name ]}.

(** [prefersDark] is [matchMedia("(prefers-color-scheme: dark)").matches]. *)
Definition getInitialThemeMode (prefersDark : bool) (pg : Page) : Mode :=
  let preferred := if prefersDark then dark else light in
  match localStorage pg !! "theme-mode" with
  | Some saved =>
    if bool_decide (saved = "light") then light
    else if bool_decide (saved = "dark") then dark
    else preferred
  | None => preferred
  end.

(** The effect with dependency [[themeMode]]. *)
Definition theme_effect (themeMode : Mode) (pg : Page) : Page :=
  {| classList :=
       classList_toggle "light" (String.eqb (mode_name themeMode) "light")
         (classList_toggle "dark" (String.eqb (mode_name themeMode) "dark")
            (classList pg));
     colorScheme := mode_name themeMode;
     localStorage := <[ "theme-mode" := mode_name themeMode ]> (localStorage pg) |}.

(** The updater of the theme button. *)
Definition toggle (prev : Mode) : Mode :=
  match prev with dark => light | light => dark end.

(** [main.tsx], before the first render. *)
Definition boot (pg : Page) : Page :=
  {| classList := {[ "dark" ]} ∪ classList pg;
     colorScheme := "dark";
     localStorage := localStorage pg |}.

(** The page after the component has mounted and the button has been
    pressed [presses] times, with the mode it shows. *)
Fixpoint press (presses : nat) (m : Mode) (pg : Page) : Mode * Page :=
  match presses with
  | O => (m, theme_effect m pg)
  | S n => press n (toggle m) (theme_effect m pg)
  end.

Definition session (prefersDark : bool) (presses : nat) (pg : Page)
  : Mode * Page :=
  let pg := boot pg in
  press presses (getInitialThemeMode prefersDark pg) pg.

End Theme.

(** ** The manual retry ([retryGeolocation]) *)

Module Retry.

Inductive PermissionState : Type := granted | denied | prompt.

(** [permissions] is [None] without [navigator.permissions], [Some None]
    when the query rejects, else the state it reports. *)
Definition isGeolocationBlockedByBrowser
    (permissions : option (option PermissionState)) : bool :=
  match permissions with
  | Some (Some denied) => true
  | _ => false
  end.

Definition blocked_notice : string :=
  "Permissão de geolocalização bloqueada. Ative nas definições do site e tente novamente.".

(** The geolocation state with what the retry adds: the nonce that
    restarts the effect, the handle [setTimeout] returns next, and the
    one-shot requests made with [getCurrentPosition]. *)
Record State : Type := mkState {
  geo : Geo.State;
  geoRetryNonce : Z;
  next_timer : Z;
  requests : list Geo.PositionOptions
}.

Definition with_geo (g : Geo.State) (st : State) : State :=
  {| geo := g; geoRetryNonce := geoRetryNonce st;
     next_timer := next_timer st; requests := requests st |}.

Definition one_shot_options : Geo.PositionOptions :=
  {| Geo.enableHighAccuracy := true; Geo.timeout := 10000; Geo.maximumAge := 0 |}.

(** The click handler, up to the end of the handler. *)
Definition retryGeolocation (supported secure : bool) (st : State) : State :=
  if Geo.isGeoRetrying (geo st) then st
  else
    let g := Geo.setIsGeoRetrying true (geo st) in
    match Geo.getInitialGeoError supported secure with
    | Some initialError =>
      with_geo (Geo.setIsGeoRetrying false (Geo.setGeoError (Some initialError) g)) st
    | None =>
      {| geo := Geo.set_geoRetryTimeoutRef (Some (next_timer st))
                  (Geo.set_pendingTimeouts
                     ({[ next_timer st ]} ∪ Geo.pendingTimeouts g) g);
         geoRetryNonce := geoRetryNonce st + 1;
         next_timer := next_timer st + 1;
         requests := requests st ++ [one_shot_options] |}
    end.

(** The render after a click: the effect with dependency [[geoRetryNonce]]
    is cleaned up and run again when the nonce changed. *)
Definition click (supported secure : bool) (st : State) : State :=
  let st' := retryGeolocation supported secure st in
  if bool_decide (geoRetryNonce st' = geoRetryNonce st) then st'
  else with_geo (Geo.activate supported secure (Geo.cleanup (geo st'))) st'.

(** The success callback of [getCurrentPosition]. *)
Definition onOneShotPosition (now : Z) (lat lng : number) (g : Geo.State)
  : Geo.State :=
  let g := Geo.setMe (Some {| lu_lat := lat; lu_lng := lng |}) g in
  let g := Geo.setGeoError None g in
  let g :=
    if bool_decide (now - Geo.lastSentAt g >= 2000)
    then Geo.socket_emit {| lu_lat := lat; lu_lng := lng |}
           (Geo.set_lastSentAt now g)
    else g in
  let g := Geo.setIsGeoRetrying false g in
  Geo.clearRetryTimeout g.

(** Its error callback, resumed with the answer of
    [isGeolocationBlockedByBrowser]. *)
Definition onOneShotError (permissions : option (option PermissionState))
    (err : Geo.GeolocationPositionError) (g : Geo.State) : Geo.State :=
  if isGeolocationBlockedByBrowser permissions
  then Geo.setIsGeoRetrying false (Geo.setGeoError (Some blocked_notice) g)
  else Geo.setIsGeoRetrying false
         (Geo.setGeoError (Some (Geo.geolocationErrorMessage err)) g).

(** The callback of the 12-second timer [h], which runs when the timer is
    still pending. *)
Definition onRetryTimer (h : Z) (g : Geo.State) : Geo.State :=
  if bool_decide (h ∈ Geo.pendingTimeouts g)
  then Geo.set_geoRetryTimeoutRef None
         (Geo.setIsGeoRetrying false
            (Geo.set_pendingTimeouts (Geo.pendingTimeouts g ∖ {[ h ]}) g))
  else g.

Inductive Event : Type :=
  | Watch (ev : Geo.Event)
  | Click
  | OneShotPosition (now : Z) (lat lng : number)
  | OneShotError (permissions : option (option PermissionState))
      (err : Geo.GeolocationPositionError)
  | TimerFired (h : Z).

Definition step (supported secure : bool) (st : State) (ev : Event) : State :=
  match ev with
  | Watch e => with_geo (Geo.step (geo st) e) st
  | Click => click supported secure st
  | OneShotPosition now lat lng => with_geo (onOneShotPosition now lat lng (geo st)) st
  | OneShotError permissions err => with_geo (onOneShotError permissions err (geo st)) st
  | TimerFired h => with_geo (onRetryTimer h (geo st)) st
  end.

Definition run (supported secure : bool) (st : State) (evs : list Event) : State :=
  foldl (step supported secure) st evs.

(** The clock reading an event takes, when it takes one. *)
Definition clock_of (ev : Event) : option Z :=
  match ev with
  | Watch (Geo.Position now _ _) => Some now
  | OneShotPosition now _ _ => Some now
  | _ => None
  end.

(** The clock readings of the events that handed an update to
    [socket.emit], in order. *)
Fixpoint transmission_times (supported secure : bool) (st : State)
    (evs : list Event) : list Z :=
  match evs with
  | [] => []
  | ev :: evs =>
    let st' := step supported secure st ev in
    match clock_of ev with
    | Some now =>
      if bool_decide (length (Geo.emitted (geo st')) = length (Geo.emitted (geo st)))
      then transmission_times supported secure st' evs
      else now :: transmission_times supported secure st' evs
    | None => transmission_times supported secure st' evs
    end
  end.

(** Every reading is at least 2000 ms after the one before it, the first
    one after [t]. *)
Fixpoint spaced_from (t : Z) (times : list Z) : Prop :=
  match times with
  | [] => True
  | x :: times => 2000 ≤ x - t ∧ spaced_from x times
  end.

(** A string that [geoError ? ... : ...] takes for an error to show. *)
Definition shows_error (geoError : option string) : Prop :=
  match geoError with
  | Some e => e ≠ ""
  | None => False
  end.

(** The retry spinner shows only while some retry timer is pending. *)
Definition spinner_backed (g : Geo.State) : Prop :=
  Geo.isGeoRetrying g = true → Geo.pendingTimeouts g ≠ ∅.

(** No watch is active under a handle the platform has yet to hand out,
    and handles are not negative. *)
Definition fresh_handles (nav : Geo.Navigator) : Prop :=
  0 ≤ Geo.next_handle nav
  ∧ ∀ h, Geo.next_handle nav ≤ h → Geo.watches nav !! h = None.

End Retry.

(** ** Deliveries of ["users:update"] *)

Module Deliveries.


End Deliveries.

(** * Properties *)

(** ** Lists *)

Section ListFacts.
Context {A : Type}.

Lemma filter_ext_in (P Q : A → Prop) `{!∀ x, Decision (P x), !∀ x, Decision (Q x)}
    (l : list A) :
  (∀ x, x ∈ l → (P x ↔ Q x)) → filter P l = filter Q l.
Proof.
  induction l as [|a l IH]; intros Hext; [done|].
  rewrite !filter_cons.
  assert (P a ↔ Q a) as Ha by (apply Hext; left).
  rewrite IH by (intros x Hx; apply Hext; by right).
  destruct (decide (P a)), (decide (Q a)); tauto.
Qed.

Lemma filter_all (P : A → Prop) `{!∀ x, Decision (P x)} (l : list A) :
  (∀ x, x ∈ l → P x) → filter P l = l.
Proof.
  induction l as [|a l IH]; intros Hall; [done|].
  rewrite filter_cons_True by (apply Hall; left).
  f_equal. apply IH. intros x Hx. apply Hall. by right.
Qed.

Lemma filter_none (P : A → Prop) `{!∀ x, Decision (P x)} (l : list A) :
  (∀ x, x ∈ l → ¬ P x) → filter P l = [].
Proof.
  induction l as [|a l IH]; intros Hnone; [done|].
  rewrite filter_cons_False by (apply Hnone; left).
  apply IH. intros x Hx. apply Hnone. by right.
Qed.
End ListFacts.

(** ** The reconciler *)

Section ReconcilerFacts.
Import Reconciler.

Lemma first_occurrences_filter (P : string → Prop) `{!∀ x, Decision (P x)} l :
  first_occurrences (filter P l) = filter P (first_occurrences l).
Proof.
  induction l as [|x l IH]; [done|]. simpl.
  destruct (decide (P x)) as [HP|HP].
  - rewrite filter_cons_True by done. simpl.
    rewrite (filter_cons_True P) by done. f_equal.
    rewrite IH, !list_filter_filter. apply list_filter_iff. intros y. tauto.
  - rewrite !filter_cons_False by done. rewrite IH.
    rewrite list_filter_filter. apply list_filter_iff.
    intros y. split; [|tauto]. intros Hy. split; [done|]. by intros ->.
Qed.

Lemma elem_of_first_occurrences l x : x ∈ first_occurrences l ↔ x ∈ l.
Proof.
  induction l as [|y l IH]; [done|]. simpl.
  rewrite !elem_of_cons, list_elem_of_filter, IH.
  destruct (decide (x = y)); tauto.
Qed.

Lemma NoDup_first_occurrences l : NoDup (first_occurrences l).
Proof.
  induction l as [|y l IH]; simpl; [constructor|].
  constructor.
  - rewrite list_elem_of_filter. tauto.
  - by apply NoDup_filter.
Qed.

Lemma first_occurrences_NoDup l : NoDup l → first_occurrences l = l.
Proof.
  induction 1 as [|x l Hx _ IH]; [done|]. simpl. rewrite IH. f_equal.
  apply filter_all. by intros y Hy ->.
Qed.

(** What the loop leaves in [known] and [additions], from any state. *)
Lemma additions_loop_from known acc users :
  foldl addition_step (known, acc) users
  = (list_to_set (ids users) ∪ known,
     acc ++ first_occurrences (filter (λ i, i ∉ known) (ids users))).
Proof.
  revert known acc.
  induction users as [|u users IH]; intros known acc; simpl.
  - by rewrite app_nil_r, (left_id_L ∅ (∪)).
  - case_bool_decide as Hin.
    + rewrite IH. rewrite filter_cons_False by tauto.
      f_equal. set_solver.
    + rewrite IH. rewrite (filter_cons_True _ (id u)) by done. simpl.
      rewrite <- app_assoc. simpl. f_equal; [set_solver|].
      do 2 f_equal.
      rewrite <- first_occurrences_filter, list_filter_filter.
      f_equal. apply list_filter_iff. set_solver.
Qed.

Lemma reconcile_eq_spec prev users :
  reconcile prev users = reconcile_spec prev users.
Proof.
  unfold reconcile, reconcile_spec, additions_loop.
  rewrite additions_loop_from. simpl.
  assert (filter (λ i, i ∈ (list_to_set (ids users) : gset string)) prev
          = filter (λ i, i ∈ ids users) prev) as ->
    by (apply list_filter_iff; set_solver).
  f_equal. f_equal. apply filter_ext_in. intros i Hi.
  rewrite elem_of_list_to_set, list_elem_of_filter. tauto.
Qed.

Lemma elem_of_reconcile prev users i :
  i ∈ reconcile prev users ↔ i ∈ ids users.
Proof.
  rewrite reconcile_eq_spec. unfold reconcile_spec.
  rewrite elem_of_app, elem_of_first_occurrences, !list_elem_of_filter.
  destruct (decide (i ∈ prev)); tauto.
Qed.

Lemma NoDup_reconcile prev users : NoDup prev → NoDup (reconcile prev users).
Proof.
  intros Hprev. rewrite reconcile_eq_spec. unfold reconcile_spec.
  apply NoDup_app. split; [by apply NoDup_filter|]. split.
  - intros i. rewrite elem_of_first_occurrences, !list_elem_of_filter. tauto.
  - apply NoDup_first_occurrences.
Qed.

Lemma NoDup_reconcile_all snapshots : NoDup (reconcile_all snapshots).
Proof.
  unfold reconcile_all.
  induction snapshots as [|r snapshots IH] using rev_ind; [constructor|].
  rewrite foldl_app. simpl. by apply NoDup_reconcile.
Qed.
End ReconcilerFacts.

(** C1. For every previous display order and every roster snapshot, the
    reconciliation step returns the previous ids that are still in the
    snapshot, in their previous order, followed by the ids of the snapshot
    that were not in the previous order, in snapshot order (each once, at
    its first appearance; when the snapshot's ids are unique this is the
    plain selection). Previous order [A,B,C] with roster {B,C,D} gives
    [B,C,D]; with roster {A,B,C,D} it gives [A,B,C,D]. *)
Theorem reconcile_contract :
  (∀ prev users,
     Reconciler.reconcile prev users = Reconciler.reconcile_spec prev users)
  ∧ (∀ prev users, NoDup (ids users) →
       Reconciler.reconcile prev users
       = filter (λ i, i ∈ ids users) prev ++ filter (λ i, i ∉ prev) (ids users))
  ∧ Reconciler.reconcile ["A"; "B"; "C"]
      [Sample.user "B"; Sample.user "C"; Sample.user "D"] = ["B"; "C"; "D"]
  ∧ Reconciler.reconcile ["A"; "B"; "C"]
      [Sample.user "A"; Sample.user "B"; Sample.user "C"; Sample.user "D"]
    = ["A"; "B"; "C"; "D"].
Proof.
  split; [exact reconcile_eq_spec|]. split.
  - intros prev users Hids. rewrite reconcile_eq_spec.
    unfold Reconciler.reconcile_spec. f_equal.
    apply first_occurrences_NoDup. by apply NoDup_filter.
  - split; rewrite reconcile_eq_spec; reflexivity.
Qed.

(** The contract at a snapshot with unique ids. *)
Lemma reconcile_contract_witness :
  NoDup (ids [Sample.user "B"; Sample.user "C"; Sample.user "D"])
  ∧ Reconciler.reconcile ["A"; "B"; "C"]
      [Sample.user "B"; Sample.user "C"; Sample.user "D"]
    = filter (λ i, i ∈ ids [Sample.user "B"; Sample.user "C"; Sample.user "D"])
        ["A"; "B"; "C"]
      ++ filter (λ i, i ∉ ["A"; "B"; "C"])
           (ids [Sample.user "B"; Sample.user "C"; Sample.user "D"]).
Proof.
  assert (NoDup (ids [Sample.user "B"; Sample.user "C"; Sample.user "D"])) as Hids
    by compute_done.
  split; [exact Hids|].
  exact (proj1 (proj2 reconcile_contract) _ _ Hids).
Defined.

(** C2. After any sequence of roster snapshots applied in order to the
    initially empty display order, the display order has no repeated id
    and its ids are exactly those of the latest snapshot; when the ids of
    that snapshot are unique, the order is a rearrangement of them. *)
Theorem display_order_tracks_latest_snapshot (snapshots : list (list LiveUser)) :
  NoDup (Reconciler.reconcile_all snapshots)
  ∧ (∀ i, i ∈ Reconciler.reconcile_all snapshots
          ↔ i ∈ ids (Reconciler.latest snapshots))
  ∧ (NoDup (ids (Reconciler.latest snapshots)) →
     Reconciler.reconcile_all snapshots ≡ₚ ids (Reconciler.latest snapshots)).
Proof.
  assert (∀ i, i ∈ Reconciler.reconcile_all snapshots
               ↔ i ∈ ids (Reconciler.latest snapshots)) as Hmem.
  { unfold Reconciler.reconcile_all, Reconciler.latest.
    destruct snapshots as [|r snapshots _] using rev_ind; [done|].
    intros i. rewrite foldl_app, last_snoc. simpl. apply elem_of_reconcile. }
  split; [apply NoDup_reconcile_all|]. split; [exact Hmem|].
  intros Hids. apply NoDup_Permutation; [apply NoDup_reconcile_all|done|exact Hmem].
Qed.

(** Two snapshots with unique ids, the second dropping A and adding C. *)
Lemma display_order_tracks_latest_snapshot_witness :
  NoDup (ids (Reconciler.latest
                [[Sample.user "A"; Sample.user "B"];
                 [Sample.user "B"; Sample.user "C"]]))
  ∧ Reconciler.reconcile_all
      [[Sample.user "A"; Sample.user "B"]; [Sample.user "B"; Sample.user "C"]]
    ≡ₚ ["B"; "C"].
Proof.
  assert (NoDup (ids (Reconciler.latest
                        [[Sample.user "A"; Sample.user "B"];
                         [Sample.user "B"; Sample.user "C"]]))) as Hids
    by compute_done.
  split; [exact Hids|].
  exact (proj2 (proj2 (display_order_tracks_latest_snapshot _)) Hids).
Defined.

(** C3. Reconciliation is a function of the previous order and the roster
    alone, and running it a second time with the same roster changes
    nothing: reconcile (reconcile prev r) r = reconcile prev r. *)
Theorem reconcile_idempotent (prev : list string) (r : list LiveUser) :
  Reconciler.reconcile (Reconciler.reconcile prev r) r
  = Reconciler.reconcile prev r.
Proof.
  rewrite (reconcile_eq_spec (Reconciler.reconcile prev r)).
  unfold Reconciler.reconcile_spec.
  rewrite filter_all by (intros i; apply elem_of_reconcile).
  rewrite filter_none; [by rewrite app_nil_r|].
  intros i Hi Hnot. apply Hnot. by apply elem_of_reconcile.
Qed.

(** ** The derived display list *)

Section DisplayFacts.
Import Display.

Lemma byId_snoc users u : byId (users ++ [u]) = <[ id u := u ]> (byId users).
Proof. unfold byId. by rewrite foldl_snoc. Qed.

(** An entry of the index is a participant of the roster under its id. *)
Lemma byId_Some users i u : byId users !! i = Some u → u ∈ users ∧ id u = i.
Proof.
  induction users as [|v users IH] using rev_ind; [done|].
  rewrite byId_snoc, elem_of_app, list_elem_of_singleton.
  destruct (decide (id v = i)) as [<-|Hne].
  - rewrite lookup_insert_eq. intros [= <-]. auto.
  - rewrite lookup_insert_ne by done. intros Hu. destruct (IH Hu). auto.
Qed.

(** Every id of the roster is indexed. *)
Lemma byId_is_Some users i : i ∈ ids users ↔ is_Some (byId users !! i).
Proof.
  split.
  - induction users as [|v users IH] using rev_ind; [by intros ?%elem_of_nil|].
    unfold ids. rewrite fmap_app, elem_of_app, byId_snoc. simpl.
    rewrite list_elem_of_singleton.
    destruct (decide (id v = i)) as [<-|Hne].
    + rewrite lookup_insert_eq. eauto.
    + rewrite lookup_insert_ne by done. intros [Hi| ->]; [by apply IH|done].
  - intros [u [Hu <-]%byId_Some]. by apply list_elem_of_fmap_2.
Qed.

(** With unique ids, each participant is indexed under its id. *)
Lemma byId_lookup_id users u :
  NoDup (ids users) → u ∈ users → byId users !! id u = Some u.
Proof.
  induction users as [|v users IH] using rev_ind; [by intros _ ?%elem_of_nil|].
  unfold ids. rewrite fmap_app, byId_snoc, elem_of_app. simpl.
  rewrite list_elem_of_singleton.
  intros [Hnd [Hfresh _]]%NoDup_app [Hu| ->]; [|by rewrite lookup_insert_eq].
  rewrite lookup_insert_ne; [by apply IH|].
  intros Heq. apply (Hfresh (id u)); [by apply list_elem_of_fmap_2|].
  rewrite Heq. by left.
Qed.

(** The ids looked up are the ids of the order that the roster has. *)
Lemma ids_lookup_ordered users userOrder :
  ids (lookup_ordered users userOrder)
  = filter (λ i, i ∈ ids users) userOrder.
Proof.
  unfold lookup_ordered, ids.
  induction userOrder as [|i userOrder IH]; [done|]. csimpl.
  destruct (byId users !! i) as [u|] eqn:Hi.
  - rewrite filter_cons_True by (apply byId_is_Some; eauto).
    csimpl. rewrite IH. f_equal. by apply byId_Some in Hi as [_ ?].
  - rewrite filter_cons_False; [done|].
    rewrite byId_is_Some, Hi. by intros [? ?].
Qed.

Lemma ids_filter (P : string → Prop) `{!∀ i, Decision (P i)} users :
  ids (filter (λ u, P (id u)) users) = filter P (ids users).
Proof.
  unfold ids. induction users as [|u users IH]; [done|]. csimpl.
  rewrite !filter_cons. destruct (decide (P (id u))); csimpl; by rewrite IH.
Qed.

Lemma elem_of_lookup_ordered users userOrder u :
  NoDup (ids users) →
  u ∈ lookup_ordered users userOrder ↔ u ∈ users ∧ id u ∈ userOrder.
Proof.
  intros Hids. unfold lookup_ordered. rewrite list_elem_of_omap. split.
  - intros (i & Hi & [Hu <-]%byId_Some). auto.
  - intros [Hu Hi]. exists (id u). split; [done|]. by apply byId_lookup_id.
Qed.

(** With a duplicate-free order and unique roster ids, the shortcut on
    equal lengths never hides a participant: the memo always returns the
    participants looked up along the order, then the others. *)
Lemma orderedUsers_unfold users userOrder :
  NoDup userOrder → NoDup (ids users) →
  orderedUsers users userOrder
  = lookup_ordered users userOrder ++ filter (λ u, id u ∉ userOrder) users.
Proof.
  intros Horder Hids. unfold orderedUsers.
  assert (NoDup (lookup_ordered users userOrder)) as Hnd.
  { apply (NoDup_fmap_1 id). fold (ids (lookup_ordered users userOrder)).
    rewrite ids_lookup_ordered. by apply NoDup_filter. }
  case_bool_decide as Hlen.
  - rewrite filter_none; [by rewrite app_nil_r|].
    intros u Hu Hnot. apply Hnot.
    assert (lookup_ordered users userOrder ≡ₚ users) as Hperm.
    { apply submseteq_length_Permutation; [|lia].
      apply NoDup_submseteq; [done|].
      intros v. rewrite elem_of_lookup_ordered by done. tauto. }
    rewrite <- Hperm in Hu.
    by apply elem_of_lookup_ordered in Hu as [_ ?].
  - f_equal. apply filter_ext_in. intros u Hu.
    rewrite elem_of_list_to_set, ids_lookup_ordered, list_elem_of_filter.
    assert (id u ∈ ids users) by by apply list_elem_of_fmap_2.
    tauto.
Qed.
End DisplayFacts.

(** C10, as amended. For every roster whose ids are unique and every
    display order without a repeated id (stale or not: it may miss roster
    ids and hold ids the roster no longer has), the derived display list is
    a rearrangement of the roster, so it holds each participant exactly
    once; it lists first the participants found along the order, skipping
    the ids the roster does not have, then the roster's participants that
    the order misses, in roster order. *)
Theorem orderedUsers_total_and_duplicate_free
    (users : list LiveUser) (userOrder : list string) :
  NoDup userOrder → NoDup (ids users) →
  Display.orderedUsers users userOrder ≡ₚ users
  ∧ NoDup (ids (Display.orderedUsers users userOrder))
  ∧ Display.orderedUsers users userOrder
    = Display.lookup_ordered users userOrder
      ++ filter (λ u, id u ∉ userOrder) users
  ∧ ids (Display.lookup_ordered users userOrder)
    = filter (λ i, i ∈ ids users) userOrder.
Proof.
  intros Horder Hids.
  assert (NoDup (ids (Display.orderedUsers users userOrder))) as Hnd.
  { rewrite orderedUsers_unfold by done.
    pose proof (ids_filter (λ i, i ∉ userOrder) users) as Hrest.
    pose proof (ids_lookup_ordered users userOrder) as Hfound.
    unfold ids in *. rewrite fmap_app, Hfound, Hrest.
    apply NoDup_app. split; [by apply NoDup_filter|]. split; [|by apply NoDup_filter].
    intros i. rewrite !list_elem_of_filter. tauto. }
  split; [|split; [done|]].
  - apply NoDup_Permutation.
    + by apply (NoDup_fmap_1 id).
    + by apply (NoDup_fmap_1 id).
    + intros u. rewrite orderedUsers_unfold by done.
      rewrite elem_of_app, elem_of_lookup_ordered, list_elem_of_filter by done.
      destruct (decide (id u ∈ userOrder)); tauto.
  - split; [by apply orderedUsers_unfold|apply ids_lookup_ordered].
Qed.

(** A stale order: it misses C and still holds X. *)
Lemma orderedUsers_total_and_duplicate_free_witness :
  Display.orderedUsers [Sample.user "A"; Sample.user "B"; Sample.user "C"]
    ["B"; "X"; "A"]
  ≡ₚ [Sample.user "A"; Sample.user "B"; Sample.user "C"].
Proof.
  refine (proj1 (orderedUsers_total_and_duplicate_free
                   [Sample.user "A"; Sample.user "B"; Sample.user "C"]
                   ["B"; "X"; "A"] _ _)); compute_done.
Defined.

(** C10, as stated, fails. An order that repeats an id meets the shortcut
    on equal lengths and hides a participant; a roster that repeats an id
    loses the earlier of the two participants. *)
Lemma orderedUsers_not_total_in_general :
  (Display.orderedUsers [Sample.user "A"; Sample.user "B"] ["A"; "A"]
   = [Sample.user "A"; Sample.user "A"]
   ∧ Sample.user "B"
     ∉ Display.orderedUsers [Sample.user "A"; Sample.user "B"] ["A"; "A"])
  ∧ (Display.orderedUsers
       [mkLiveUser "B" MapSurface.num_13 MapSurface.num_13 1;
        mkLiveUser "B" MapSurface.num_15 MapSurface.num_15 2] ["B"]
     = [mkLiveUser "B" MapSurface.num_15 MapSurface.num_15 2]).
Proof.
  assert (Display.orderedUsers [Sample.user "A"; Sample.user "B"] ["A"; "A"]
          = [Sample.user "A"; Sample.user "A"]) as Heq by (vm_compute; reflexivity).
  split; [split; [exact Heq|]|vm_compute; reflexivity].
  rewrite Heq. intros Hin.
  apply elem_of_cons in Hin as [Hin|Hin]; [discriminate Hin|].
  apply elem_of_cons in Hin as [Hin|Hin]; [discriminate Hin|].
  by apply elem_of_nil in Hin.
Qed.

(** ** The roster handler *)

(** C8. A payload that is not an array leaves the state as it was: the
    handler returns the roster and the display order it was given, and no
    effect runs. A payload that is an array becomes the roster, whatever
    the roster was before, and the display order is reconciled with it.
    The handler is a total function: it raises nothing. *)
Theorem users_update_handler (st : Roster.State) (payload : Roster.Payload) :
  (Roster.Array_isArray payload = false →
     Roster.handler payload st = st ∧ Roster.deliver st payload = st)
  ∧ (∀ items, payload = Roster.PArray items →
       Roster.users (Roster.handler payload st) = items
       ∧ Roster.users (Roster.deliver st payload) = items
       ∧ Roster.userOrder (Roster.deliver st payload)
         = Reconciler.reconcile (Roster.userOrder st) items).
Proof.
  split.
  - intros Hnot. unfold Roster.deliver. rewrite Hnot.
    destruct payload; try done.
  - by intros items ->.
Qed.

(** A string is discarded; an array replaces the roster. *)
Lemma users_update_handler_witness :
  Roster.deliver
    {| Roster.users := [Sample.user "A"]; Roster.userOrder := ["A"] |}
    (Roster.PString "not a roster")
  = {| Roster.users := [Sample.user "A"]; Roster.userOrder := ["A"] |}
  ∧ Roster.users
      (Roster.deliver
         {| Roster.users := [Sample.user "A"]; Roster.userOrder := ["A"] |}
         (Roster.PArray [Sample.user "B"]))
    = [Sample.user "B"].
Proof.
  split.
  - exact (proj2 (proj1 (users_update_handler _ (Roster.PString "not a roster"))
                    eq_refl)).
  - exact (proj1 (proj2 (proj2 (users_update_handler _ _) _ eq_refl))).
Defined.

(** ** Endpoint resolution *)

Section EndpointFacts.
Import Endpoint.
Variable trim : string → string.
Variable parseURL : string → option URL.

Lemma isLocalhost_loopback u : isLocalhost u = true ↔ loopback (url_hostname u).
Proof.
  unfold isLocalhost, loopback.
  rewrite !orb_true_iff, !bool_decide_eq_true. tauto.
Qed.

Lemma resolve_unconfigured env page :
  configured trim env = None →
  resolveSocketUrl trim parseURL env (Some page) = origin page.
Proof.
  unfold configured, resolveSocketUrl.
  destruct env as [raw|]; simpl; [|done].
  by case_bool_decide.
Qed.

Lemma resolve_configured env page s :
  configured trim env = Some s →
  resolveSocketUrl trim parseURL env (Some page)
  = match parseURL s with
    | Some u =>
      if isLocalhost u
         && bool_decide (hostname page ≠ "localhost")
         && bool_decide (hostname page ≠ "127.0.0.1")
      then origin page else url_toString u
    | None => s
    end.
Proof.
  unfold configured, resolveSocketUrl.
  destruct env as [raw|]; simpl; [|done].
  case_bool_decide; [done|]. by intros [= ->].
Qed.
End EndpointFacts.

(** What the code does, on the hostname strings it compares. With a page
    loaded, endpoint resolution returns: the page's origin when no URL is
    configured; the page's origin when the configured URL parses, the
    hostname reported for it is the string localhost, 127.0.0.1 or ::1,
    and the page's hostname is neither localhost nor 127.0.0.1; the parsed
    URL, as it serialises, when it parses otherwise; the configured string
    itself when it does not parse. The configured string is the setting
    with the surrounding white space trimmed; an empty one counts as not
    set. *)
Lemma resolveSocketUrl_on_hostname_strings (trim : string → string)
    (parseURL : string → option Endpoint.URL)
    (env : option string) (page : Endpoint.Location) :
  let r := Endpoint.resolveSocketUrl trim parseURL env (Some page) in
  (Endpoint.configured trim env = None → r = Endpoint.origin page)
  ∧ (∀ s u, Endpoint.configured trim env = Some s → parseURL s = Some u →
       Endpoint.loopback (Endpoint.url_hostname u) →
       ¬ Endpoint.local_page (Endpoint.hostname page) →
       r = Endpoint.origin page)
  ∧ (∀ s u, Endpoint.configured trim env = Some s → parseURL s = Some u →
       ¬ (Endpoint.loopback (Endpoint.url_hostname u)
          ∧ ¬ Endpoint.local_page (Endpoint.hostname page)) →
       r = Endpoint.url_toString u)
  ∧ (∀ s, Endpoint.configured trim env = Some s → parseURL s = None → r = s).
Proof.
  simpl. split; [apply resolve_unconfigured|]. repeat split.
  - intros s u Hs Hu Hloop Hpage.
    rewrite (resolve_configured _ _ _ _ _ Hs), Hu.
    apply isLocalhost_loopback in Hloop as ->. simpl.
    unfold Endpoint.local_page in Hpage.
    rewrite !bool_decide_eq_true_2; [done|tauto|tauto].
  - intros s u Hs Hu Hnot.
    rewrite (resolve_configured _ _ _ _ _ Hs), Hu.
    destruct (Endpoint.isLocalhost u) eqn:Hloop; [|done]. simpl.
    apply isLocalhost_loopback in Hloop.
    unfold Endpoint.local_page in Hnot.
    do 2 case_bool_decide; simpl; try done. tauto.
  - intros s Hs Hu. by rewrite (resolve_configured _ _ _ _ _ Hs), Hu.
Qed.

(** Whatever the page, a URL whose reported hostname is [::1] is never
    replaced by the page's origin. *)
Lemma bracketed_ipv6_host_is_kept (trim : string → string)
    (parseURL : string → option Endpoint.URL) (env : option string)
    (window : option Endpoint.Location) (s : string) (u : Endpoint.URL) :
  Endpoint.configured trim env = Some s → parseURL s = Some u →
  Endpoint.url_hostname u = "[::1]" →
  Endpoint.resolveSocketUrl trim parseURL env window = Endpoint.url_toString u.
Proof.
  unfold Endpoint.configured, Endpoint.resolveSocketUrl, Endpoint.isLocalhost.
  destruct env as [raw|]; simpl; [|done].
  case_bool_decide; [done|]. intros [= ->] -> Hhost. rewrite Hhost.
  by destruct window.
Qed.

(** C4. The code at the failing input. A backend configured on the IPv6
    loopback address, http://[::1]:3001, and the page opened from another
    device (192.168.1.20): the hostname reported for the URL is [::1],
    which the test against ::1 does not match, so the URL is kept, where a
    localhost URL from the same page is replaced by the page's origin.
    Likewise a page served from [::1] is not taken for a loopback page: a
    configured localhost URL is replaced by its origin. *)
Theorem resolveSocketUrl_ipv6_loopback_not_rerouted :
  Endpoint.resolveSocketUrl Endpoint.ascii_trim Endpoint.ipv6_parseURL
    (Some "http://[::1]:3001")
    (Some {| Endpoint.origin := "http://192.168.1.20:5173";
             Endpoint.hostname := "192.168.1.20" |})
  = "http://[::1]:3001/"
  ∧ Endpoint.resolveSocketUrl Endpoint.ascii_trim Endpoint.ipv6_parseURL
      (Some "http://localhost:3001")
      (Some {| Endpoint.origin := "http://192.168.1.20:5173";
               Endpoint.hostname := "192.168.1.20" |})
    = "http://192.168.1.20:5173"
  ∧ Endpoint.resolveSocketUrl Endpoint.ascii_trim Endpoint.ipv6_parseURL
      (Some "http://localhost:3001")
      (Some {| Endpoint.origin := "http://[::1]:5173";
               Endpoint.hostname := "[::1]" |})
    = "http://[::1]:5173".
Proof.
  split; [|split]; vm_compute; reflexivity.
Qed.

(** ** Focus selection *)




(** ** The map surface *)

Section NumberFacts.
Import MapSurface.


Lemma SFcompare_refl a : is_nan a = false → SFcompare a a = Some Eq.
Proof.
  destruct a as [[]|[]| |[] m e]; simpl; try done; intros _;
    by rewrite Z.compare_refl, Pos.compare_cont_refl.
Qed.

Lemma SFcompare_None a b :
  SFcompare a b = None → is_nan a || is_nan b = true.
Proof.
  destruct a as [[]|[]| |[] ma ea], b as [[]|[]| |[] mb eb]; simpl; done.
Qed.




End NumberFacts.



(** ** Geolocation: the outbound throttle *)

Section ThrottleFacts.
Import Geo.

(** Clearing the retry timer touches the ref and the timers only. *)
Lemma clearRetryTimeout_frame s :
  let s' := clearRetryTimeout s in
  me s' = me s ∧ geoError s' = geoError s
  ∧ isGeoRetrying s' = isGeoRetrying s ∧ lastSentAt s' = lastSentAt s
  ∧ watchId s' = watchId s ∧ fallbackMode s' = fallbackMode s
  ∧ navigator s' = navigator s ∧ emitted s' = emitted s.
Proof. unfold clearRetryTimeout. by destruct (geoRetryTimeoutRef s). Qed.

Lemma onPosition_throttle now la ln s :
  let p := {| lu_lat := la; lu_lng := ln |} in
  let s' := onPosition now la ln s in
  me s' = Some p
  ∧ emitted s'
    = emitted s ++ (if bool_decide (2000 ≤ now - lastSentAt s) then [p] else [])
  ∧ lastSentAt s'
    = (if bool_decide (2000 ≤ now - lastSentAt s) then now else lastSentAt s).
Proof.
  unfold onPosition, clearRetryTimeout. simpl.
  destruct (geoRetryTimeoutRef s); simpl;
    repeat case_bool_decide; simpl; try lia;
    by rewrite ?app_nil_r.
Qed.

Lemma onPosition_frame now la ln s :
  let s' := onPosition now la ln s in
  watchId s' = watchId s ∧ fallbackMode s' = fallbackMode s
  ∧ navigator s' = navigator s.
Proof.
  unfold onPosition, clearRetryTimeout. simpl.
  destruct (geoRetryTimeoutRef s); simpl; by case_bool_decide.
Qed.

(** From any state, the samples transmitted are those the contract
    names, counted from the state's last transmission. *)
Lemma run_samples_emitted samples s :
  emitted (run s (sample_event <$> samples))
  = emitted s ++ transmitted (Some (lastSentAt s)) samples.
Proof.
  revert s. induction samples as [|[t [la ln]] samples IH]; intros s.
  - simpl. by rewrite app_nil_r.
  - csimpl. unfold run in *. simpl. rewrite IH.
    destruct (onPosition_throttle t la ln s) as (_ & -> & ->).
    case_bool_decide; simpl.
    + by rewrite <- app_assoc.
    + by rewrite app_nil_r.
Qed.

Lemma run_samples_me samples s :
  me (run s (sample_event <$> samples))
  = match last samples with Some x => Some x.2 | None => me s end.
Proof.
  revert s. induction samples as [|[t [la ln]] samples IH]; intros s; [done|].
  csimpl. unfold run in *. simpl. rewrite IH, last_cons.
  repeat case_match; simplify_eq/=; try done.
  by destruct (onPosition_throttle t la ln s) as (-> & _).
Qed.

Lemma activate_fresh nav :
  let s0 := activate true true (initial true true nav) in
  lastSentAt s0 = 0 ∧ emitted s0 = [] ∧ me s0 = None.
Proof. done. Qed.
End ThrottleFacts.

(** C5. Every sample the watch delivers becomes the local position. It is
    transmitted if and only if at least 2000 ms separate its clock reading
    from that of the last transmitted sample, which then becomes its own.
    From activation, with clock readings that are epoch milliseconds (at
    least 2000), the first sample is transmitted at once and the
    transmitted samples are exactly those at least 2000 ms after the
    previously transmitted one: of two samples 500 ms apart one is
    transmitted, of two samples 2100 ms apart both are. *)
Theorem outbound_throttle_leading_sample :
  (∀ s now la ln,
     let p := {| lu_lat := la; lu_lng := ln |} in
     let s' := Geo.onPosition now la ln s in
     Geo.me s' = Some p
     ∧ Geo.emitted s'
       = Geo.emitted s
         ++ (if bool_decide (2000 ≤ now - Geo.lastSentAt s) then [p] else [])
     ∧ Geo.lastSentAt s'
       = (if bool_decide (2000 ≤ now - Geo.lastSentAt s) then now
          else Geo.lastSentAt s))
  ∧ (∀ nav t p rest,
       2000 ≤ t →
       let s := Geo.run (Geo.activate true true (Geo.initial true true nav))
                  (Geo.sample_event <$> (t, p) :: rest) in
       Geo.emitted s = Geo.transmitted None ((t, p) :: rest)
       ∧ Geo.me s = Some (default (t, p) (last rest)).2)
  ∧ (∀ nav t p q,
       2000 ≤ t →
       Geo.emitted
         (Geo.run (Geo.activate true true (Geo.initial true true nav))
            [Geo.sample_event (t, p); Geo.sample_event (t + 500, q)]) = [p]
       ∧ Geo.emitted
           (Geo.run (Geo.activate true true (Geo.initial true true nav))
              [Geo.sample_event (t, p); Geo.sample_event (t + 2100, q)])
         = [p; q]).
Proof.
  split; [intros s now la ln; apply onPosition_throttle|].
  assert (∀ nav t p rest, 2000 ≤ t →
            Geo.emitted
              (Geo.run (Geo.activate true true (Geo.initial true true nav))
                 (Geo.sample_event <$> (t, p) :: rest))
            = Geo.transmitted None ((t, p) :: rest)) as Hrun.
  { intros nav t p rest Ht. rewrite run_samples_emitted.
    destruct (activate_fresh nav) as (-> & -> & _). simpl.
    by rewrite bool_decide_eq_true_2 by lia. }
  split.
  - intros nav t p rest Ht. split; [by apply Hrun|].
    rewrite run_samples_me, last_cons.
    by repeat case_match; simplify_eq/=.
  - intros nav t p q Ht. split.
    + etrans; [exact (Hrun nav t p [(t + 500, q)] Ht)|]. simpl.
      by rewrite bool_decide_eq_false_2 by lia.
    + etrans; [exact (Hrun nav t p [(t + 2100, q)] Ht)|]. simpl.
      by rewrite bool_decide_eq_true_2 by lia.
Qed.

(** Two samples 500 ms apart, and two samples 2100 ms apart. *)
Lemma outbound_throttle_leading_sample_witness :
  Geo.emitted
    (Geo.run (Geo.activate true true (Geo.initial true true Sample.nav))
       [Geo.sample_event (Sample.clock, Sample.here);
        Geo.sample_event (Sample.clock + 500, Sample.here)])
  = [Sample.here]
  ∧ Geo.emitted
      (Geo.run (Geo.activate true true (Geo.initial true true Sample.nav))
         [Geo.sample_event (Sample.clock, Sample.here);
          Geo.sample_event (Sample.clock + 2100, Sample.here)])
    = [Sample.here; Sample.here].
Proof.
  refine (proj2 (proj2 outbound_throttle_leading_sample) Sample.nav
            Sample.clock Sample.here Sample.here _).
  unfold Sample.clock. lia.
Defined.

(** ** Geolocation: the two tiers *)

Section TierFacts.
Import Geo.

Lemma activate_starts_high s0 :
  let s := activate true true s0 in
  fallbackMode s = false
  ∧ current_options s = Some high_accuracy_tier
  ∧ calls (navigator s)
    = calls (navigator s0) ++ [WatchPosition (watchId s) high_accuracy_tier].
Proof.
  unfold activate, startWatch, current_options. simpl.
  by rewrite lookup_insert_eq.
Qed.

(** The first timeout of an activation. *)
Lemma first_timeout_downgrades err s :
  code err = 3 → fallbackMode s = false →
  let s' := onPositionError err s in
  fallbackMode s' = true
  ∧ calls (navigator s')
    = calls (navigator s)
      ++ [ClearWatch (watchId s); WatchPosition (watchId s') fallback_tier]
  ∧ current_options s' = Some fallback_tier
  ∧ geoError s' = Some downgrade_notice
  ∧ isGeoRetrying s' = isGeoRetrying s
  ∧ geoRetryTimeoutRef s' = geoRetryTimeoutRef s
  ∧ me s' = me s ∧ emitted s' = emitted s.
Proof.
  intros Hcode Hmode. unfold onPositionError.
  rewrite Hmode, bool_decide_eq_true_2 by done. simpl.
  unfold startWatch, current_options. simpl.
  by rewrite lookup_insert_eq, <- app_assoc.
Qed.

(** Any error that is not the first timeout of the activation. *)
Lemma error_is_reported err s :
  code err ≠ 3 ∨ fallbackMode s = true →
  let s' := onPositionError err s in
  geoError s' = Some (geolocationErrorMessage err)
  ∧ isGeoRetrying s' = false
  ∧ geoRetryTimeoutRef s' = None
  ∧ fallbackMode s' = fallbackMode s
  ∧ navigator s' = navigator s
  ∧ watchId s' = watchId s.
Proof.
  intros Hnot. unfold onPositionError.
  assert (bool_decide (code err = 3) && negb (fallbackMode s) = false) as ->.
  { destruct Hnot as [Hcode| ->]; [by rewrite bool_decide_eq_false_2|].
    by rewrite andb_false_r. }
  unfold clearRetryTimeout. simpl.
  by destruct (geoRetryTimeoutRef s) eqn:Href.
Qed.

(** Once in the fallback tier, no event touches the watch. *)
Lemma step_in_fallback s ev :
  fallbackMode s = true →
  fallbackMode (step s ev) = true
  ∧ navigator (step s ev) = navigator s
  ∧ watchId (step s ev) = watchId s.
Proof.
  intros Hmode. destruct ev as [now la ln|err]; unfold step.
  - destruct (onPosition_frame now la ln s) as (Hid & Hfb & Hnav).
    simpl in Hid, Hfb, Hnav. by rewrite Hid, Hfb, Hnav.
  - destruct (error_is_reported err s (or_intror Hmode))
      as (_ & _ & _ & Hfb & Hnav & Hid).
    simpl in Hid, Hfb, Hnav. by rewrite Hid, Hfb, Hnav.
Qed.

(** In the first tier, only a timeout touches the watch. *)
Lemma step_in_high s ev :
  fallbackMode s = false → is_timeout ev = false →
  fallbackMode (step s ev) = false
  ∧ navigator (step s ev) = navigator s
  ∧ watchId (step s ev) = watchId s.
Proof.
  intros Hmode Hev. destruct ev as [now la ln|err]; unfold step.
  - destruct (onPosition_frame now la ln s) as (Hid & Hfb & Hnav).
    simpl in Hid, Hfb, Hnav. by rewrite Hid, Hfb, Hnav.
  - apply bool_decide_eq_false in Hev.
    destruct (error_is_reported err s (or_introl Hev))
      as (_ & _ & _ & Hfb & Hnav & Hid).
    simpl in Hid, Hfb, Hnav. by rewrite Hid, Hfb, Hnav.
Qed.

(** The watches an activation has started and cleared by the time it
    has handled [evs], starting in the first tier. *)
Lemma run_from_high s evs :
  fallbackMode s = false →
  let s' := run s evs in
  fallbackMode s' = existsb is_timeout evs
  ∧ (if fallbackMode s'
     then calls (navigator s')
          = calls (navigator s)
            ++ [ClearWatch (watchId s); WatchPosition (watchId s') fallback_tier]
          ∧ current_options s' = Some fallback_tier
     else navigator s' = navigator s ∧ watchId s' = watchId s).
Proof.
  intros Hmode. simpl. unfold run.
  induction evs as [|ev evs IH] using rev_ind.
  - simpl. by rewrite Hmode.
  - rewrite foldl_snoc, existsb_app. simpl. rewrite orb_false_r.
    destruct IH as [Hiff IH]. rewrite <- Hiff.
    destruct (fallbackMode (foldl step s evs)) eqn:Hprev.
    + destruct (step_in_fallback _ ev Hprev) as (Hfb & Hnav & Hid).
      unfold current_options in *. by rewrite Hfb, Hnav, Hid.
    + destruct IH as [Hnav Hid].
      destruct (is_timeout ev) eqn:Hev.
      * destruct ev as [|err]; [done|]. apply bool_decide_eq_true in Hev.
        destruct (first_timeout_downgrades err _ Hev Hprev)
          as (Hfb & Hcalls & Hopts & _).
        simpl in Hfb, Hcalls, Hopts.
        change (step (foldl step s evs) (PositionError err))
          with (onPositionError err (foldl step s evs)).
        rewrite Hfb. split; [done|]. split; [|done].
        by rewrite Hcalls, Hnav, Hid.
      * destruct (step_in_high _ ev Hprev Hev) as (-> & -> & ->). done.
Qed.
End TierFacts.

(** C6. An activation starts the watch in the high-accuracy tier
    (enableHighAccuracy, timeout 20000, maximumAge 3000). The first timeout
    (code 3) it receives there clears that watch and starts one watch in
    the fallback tier (no high accuracy, timeout 30000, maximumAge 15000);
    it shows the notice that the standard mode is being tried, not the
    error report, and leaves the retry state alone. A timeout received in
    the fallback tier is reported as an error and touches no watch. Over
    any sequence of events an activation therefore starts the
    high-accuracy watch and at most one fallback watch, and clears at most
    the watch it started with. *)
Theorem timeout_downgrades_once :
  (∀ s0,
     let s := Geo.activate true true s0 in
     Geo.fallbackMode s = false
     ∧ Geo.current_options s = Some Geo.high_accuracy_tier)
  ∧ (∀ err s,
       Geo.code err = 3 → Geo.fallbackMode s = false →
       let s' := Geo.onPositionError err s in
       Geo.fallbackMode s' = true
       ∧ Geo.calls (Geo.navigator s')
         = Geo.calls (Geo.navigator s)
           ++ [Geo.ClearWatch (Geo.watchId s);
               Geo.WatchPosition (Geo.watchId s') Geo.fallback_tier]
       ∧ Geo.current_options s' = Some Geo.fallback_tier
       ∧ Geo.geoError s' = Some Geo.downgrade_notice
       ∧ Geo.downgrade_notice ≠ Geo.geolocationErrorMessage err
       ∧ Geo.isGeoRetrying s' = Geo.isGeoRetrying s
       ∧ Geo.geoRetryTimeoutRef s' = Geo.geoRetryTimeoutRef s)
  ∧ (∀ err s,
       Geo.code err = 3 → Geo.fallbackMode s = true →
       let s' := Geo.onPositionError err s in
       Geo.geoError s' = Some "Timeout expired. A tentar novamente..."
       ∧ Geo.fallbackMode s' = true
       ∧ Geo.navigator s' = Geo.navigator s
       ∧ Geo.watchId s' = Geo.watchId s)
  ∧ (∀ s0 evs,
       let s := Geo.activate true true s0 in
       let s' := Geo.run s evs in
       let downgraded := existsb Geo.is_timeout evs in
       Geo.fallbackMode s' = downgraded
       ∧ Geo.started (Geo.calls (Geo.navigator s'))
         = Geo.started (Geo.calls (Geo.navigator s0))
           ++ Geo.high_accuracy_tier
              :: (if downgraded then [Geo.fallback_tier] else [])
       ∧ Geo.cleared (Geo.calls (Geo.navigator s'))
         = Geo.cleared (Geo.calls (Geo.navigator s0))
           ++ (if downgraded then [Geo.watchId s] else [])
       ∧ Geo.current_options s'
         = Some (if downgraded then Geo.fallback_tier
                 else Geo.high_accuracy_tier)).
Proof.
  split; [|split; [|split]].
  - intros s0. by destruct (activate_starts_high s0) as (? & ? & _).
  - intros err s Hcode Hmode.
    destruct (first_timeout_downgrades err s Hcode Hmode)
      as (? & ? & ? & ? & ? & ? & _).
    repeat split; try done.
    unfold Geo.geolocationErrorMessage. rewrite Hcode. simpl.
    intros Heq. discriminate Heq.
  - intros err s Hcode Hmode.
    destruct (error_is_reported err s (or_intror Hmode))
      as (Herr & _ & _ & Hfb & Hnav & Hid).
    simpl in *. rewrite Herr, Hfb, Hnav, Hid, Hmode.
    unfold Geo.geolocationErrorMessage. by rewrite Hcode.
  - intros s0 evs.
    destruct (activate_starts_high s0) as (Hmode & Hopts & Hcalls).
    destruct (run_from_high _ evs Hmode) as [Hfb Hrun].
    cbv zeta in *. rewrite <- Hfb.
    set (s := Geo.activate true true s0) in *.
    destruct (Geo.fallbackMode (Geo.run s evs)).
    + destruct Hrun as [Hrun Hopts']. rewrite Hrun, Hcalls, Hopts'.
      unfold Geo.started, Geo.cleared. rewrite !omap_app. simpl.
      by rewrite !app_nil_r, <- app_assoc.
    + destruct Hrun as [Hnav Hid]. unfold Geo.current_options in *.
      rewrite Hnav, Hid, Hopts, Hcalls.
      unfold Geo.started, Geo.cleared. rewrite !omap_app. simpl.
      by rewrite !app_nil_r.
Qed.

(** Two timeouts in a row after activation. *)
Lemma timeout_downgrades_once_witness :
  let s := Geo.activate true true (Geo.initial true true Sample.nav) in
  let s1 := Geo.onPositionError Sample.timeout_error s in
  Geo.started
    (Geo.calls
       (Geo.navigator
          (Geo.run s [Geo.PositionError Sample.timeout_error;
                      Geo.PositionError Sample.timeout_error])))
  = Geo.started (Geo.calls (Geo.navigator (Geo.initial true true Sample.nav)))
    ++ [Geo.high_accuracy_tier; Geo.fallback_tier]
  ∧ Geo.geoError s1 = Some Geo.downgrade_notice
  ∧ Geo.geoError (Geo.onPositionError Sample.timeout_error s1)
    = Some "Timeout expired. A tentar novamente...".
Proof.
  intros s s1.
  assert (Geo.code Sample.timeout_error = 3) as Hcode by reflexivity.
  assert (Geo.fallbackMode s = false) as Hhigh by reflexivity.
  assert (Geo.fallbackMode s1 = true) as Hlow by (vm_compute; reflexivity).
  destruct timeout_downgrades_once as (_ & Hfirst & Hlater & Hrun).
  split; [|split].
  - exact (proj1 (proj2 (Hrun (Geo.initial true true Sample.nav)
                           [Geo.PositionError Sample.timeout_error;
                            Geo.PositionError Sample.timeout_error]))).
  - exact (proj1 (proj2 (proj2 (proj2
             (Hfirst Sample.timeout_error s Hcode Hhigh))))).
  - exact (proj1 (Hlater Sample.timeout_error s1 Hcode Hlow)).
Defined.

(** * Further properties *)

(** ** The roster and the display list over time *)

Section RosterFacts.
Import Reconciler.



End RosterFacts.

(** X1. When nobody has left (every id of the previous order is in the
    snapshot), the previous order is a prefix of the next one: newcomers
    go to the end and no existing entry moves. When moreover nobody has
    joined, the order is unchanged, whatever the order and the positions
    in the snapshot. *)
Theorem reconcile_keeps_positions (prev : list string) (users : list LiveUser) :
  (∀ i, i ∈ prev → i ∈ ids users) →
  prev `prefix_of` Reconciler.reconcile prev users
  ∧ ((∀ i, i ∈ ids users → i ∈ prev) → Reconciler.reconcile prev users = prev).
Proof.
  intros Hstay. rewrite reconcile_eq_spec. unfold Reconciler.reconcile_spec.
  rewrite (filter_all _ prev) by done. split.
  - by apply prefix_app_r.
  - intros Hold. rewrite filter_none; [by rewrite app_nil_r|].
    intros i Hi Hnot. by apply Hnot, Hold.
Qed.

(** Positions change, the order does not. *)
Lemma reconcile_keeps_positions_witness :
  Reconciler.reconcile ["A"; "B"]
    [mkLiveUser "B" MapSurface.num_13 MapSurface.num_15 7;
     mkLiveUser "A" MapSurface.num_15 MapSurface.num_13 9]
  = ["A"; "B"].
Proof.
  refine (proj2 (reconcile_keeps_positions ["A"; "B"]
                   [mkLiveUser "B" MapSurface.num_13 MapSurface.num_15 7;
                    mkLiveUser "A" MapSurface.num_15 MapSurface.num_13 9] _) _);
    intros i Hi; revert i Hi; apply Forall_forall; compute_done.
Defined.




(** X4. The display list never shows a participant that is not in the
    current roster, whatever the stored order holds (stale ids, repeated
    ids) and whatever the roster (repeated ids included). *)
Theorem orderedUsers_shows_roster_only (users : list LiveUser)
    (userOrder : list string) (u : LiveUser) :
  u ∈ Display.orderedUsers users userOrder → u ∈ users.
Proof.
  assert (u ∈ Display.lookup_ordered users userOrder → u ∈ users) as Hfound.
  { unfold Display.lookup_ordered. rewrite list_elem_of_omap.
    by intros (i & _ & [Hu _]%byId_Some). }
  unfold Display.orderedUsers. case_bool_decide; [done|].
  rewrite elem_of_app, list_elem_of_filter. tauto.
Qed.

(** A stale order with a repeated id over a roster with a repeated id. *)
Lemma orderedUsers_shows_roster_only_witness :
  Sample.user "A" ∈ [Sample.user "A"; Sample.user "A"; Sample.user "B"].
Proof.
  refine (orderedUsers_shows_roster_only
            [Sample.user "A"; Sample.user "A"; Sample.user "B"]
            ["X"; "A"; "A"] (Sample.user "A") _).
  assert (Display.orderedUsers
            [Sample.user "A"; Sample.user "A"; Sample.user "B"] ["X"; "A"; "A"]
          = [Sample.user "A"; Sample.user "A"; Sample.user "B"]) as ->
    by (vm_compute; reflexivity).
  by left.
Defined.

(** X5. With an empty stored order the display list is the roster as it
    came, for every roster (repeated ids included); with an empty roster
    it is empty, whatever the stored order still holds. *)
Theorem orderedUsers_empty_order_or_roster :
  (∀ users, Display.orderedUsers users [] = users)
  ∧ (∀ userOrder, Display.orderedUsers [] userOrder = []).
Proof.
  split.
  - intros users. unfold Display.orderedUsers. simpl.
    case_bool_decide as Hlen.
    + by destruct users.
    + apply filter_all. set_solver.
  - intros userOrder. unfold Display.orderedUsers.
    assert (Display.lookup_ordered [] userOrder = []) as ->; [|done].
    unfold Display.lookup_ordered. induction userOrder as [|i l IH]; [done|].
    csimpl. by rewrite IH.
Qed.

(** ** Markers, selection and the camera *)

Section MarkerFacts.
Import Markers.

Lemma ids_otherUsers socket_id users :
  ids (otherUsers socket_id users)
  = filter (λ i, Some i ≠ socket_id) (ids users).
Proof. exact (ids_filter (λ i, Some i ≠ socket_id) users). Qed.

Lemma no_marker_focused focusedUserId l :
  (∀ u, u ∈ l → focusedUserId ≠ Some (id u)) →
  filter (λ m, is_focused m = true) (user_marker focusedUserId <$> l) = [].
Proof.
  intros Hnone. apply filter_none. intros m [u [-> Hu]]%list_elem_of_fmap.
  simpl. rewrite bool_decide_eq_false_2; [done|]. by apply Hnone.
Qed.

Lemma focused_markers_bound focusedUserId l :
  NoDup (ids l) →
  (length (filter (λ m, is_focused m = true) (user_marker focusedUserId <$> l))
   ≤ 1)%nat.
Proof.
  induction l as [|u l IH]; [simpl; lia|].
  unfold ids. csimpl. intros [Hu Hl]%NoDup_cons.
  rewrite filter_cons. destruct (decide _) as [Hfocus|_]; [|by apply IH].
  simpl in Hfocus. apply bool_decide_eq_true in Hfocus.
  rewrite no_marker_focused; [simpl; lia|].
  intros v Hv ->. injection Hfocus as Heq. apply Hu. rewrite <- Heq.
  by apply list_elem_of_fmap_2.
Qed.

Lemma Math_max_nan a b :
  MapSurface.is_nan a || MapSurface.is_nan b = true →
  MapSurface.Math_max a b = S754_nan.
Proof. intros Hnan. unfold MapSurface.Math_max. by rewrite Hnan. Qed.

Lemma Math_max_compare a b c :
  SFcompare a b = Some c →
  MapSurface.Math_max a b
  = match c with
    | Lt => b
    | Gt => a
    | Eq => match a with S754_zero true => b | _ => a end
    end.
Proof.
  intros Hab. unfold MapSurface.Math_max. rewrite Hab.
  assert (MapSurface.is_nan a || MapSurface.is_nan b = false) as ->; [|done].
  destruct a as [[]|[]| |[] ma ea], b as [[]|[]| |[] mb eb]; done.
Qed.

Lemma Math_max_self b : MapSurface.Math_max b b = b.
Proof.
  destruct (MapSurface.is_nan b) eqn:Hb.
  - destruct b; try done.
  - rewrite (Math_max_compare b b Eq) by by apply SFcompare_refl.
    by destruct b as [[]| | |].
Qed.

Lemma Math_max_idem a b :
  MapSurface.Math_max (MapSurface.Math_max a b) b = MapSurface.Math_max a b.
Proof.
  destruct (SFcompare a b) as [c|] eqn:Hab.
  - rewrite (Math_max_compare a b c Hab). destruct c.
    + destruct a as [[]| | |]; first [apply Math_max_self
                                     | by rewrite (Math_max_compare _ b Eq Hab)].
    + apply Math_max_self.
    + by rewrite (Math_max_compare a b Gt Hab).
  - apply SFcompare_None in Hab. by rewrite (Math_max_nan a b Hab).
Qed.
(** A render keeps the viewport or recentres it on its target. *)
Lemma render_viewport t s :
  MapSurface.viewport (MapSurface.render t s) = MapSurface.viewport s
  ∨ ∃ tg, t = Some tg
          ∧ MapSurface.viewport (MapSurface.render t s)
            = MapSurface.recenter tg (MapSurface.viewport s).
Proof.
  unfold MapSurface.render. case_bool_decide; [by left|].
  destruct t as [tg|]; [right; by exists tg|by left].
Qed.
End MarkerFacts.

(** X6. A click on a participant marker the map has drawn. The markers
    were filtered with the connection id read when the roster last
    changed, the selection reads it again at the click. The clicked entry
    is in the roster; when its id is the connection id read at the click
    (the connection has changed since the markers were filtered) the
    click changes nothing; otherwise, and so whenever the connection id
    is still the one the markers were filtered with, the focused id
    becomes the participant's, its marker is the highlighted one and, the
    key being new to the map, the camera is centred on the participant's
    coordinates. *)
Theorem marker_click_focuses_participant (drawn_id click_id : option string)
    (users : list LiveUser) (u : LiveUser) (now : Z)
    (st : Focus.State) (map : MapSurface.State) :
  u ∈ Markers.otherUsers drawn_id users →
  Some now ≠ MapSurface.last_key map →
  let st' := Focus.focusOnUser click_id now u st in
  let focused :=
    Focus.focusedUserId st' = Some (id u)
    ∧ Markers.user_marker (Focus.focusedUserId st') u
      = Markers.UserMarker u true
    ∧ MapSurface.center
        (MapSurface.viewport
           (MapSurface.render (Focus.mapFocusTarget st') map))
      = (lng u, lat u) in
  u ∈ users
  ∧ (Some (id u) = click_id → st' = st)
  ∧ (Some (id u) ≠ click_id → focused)
  ∧ (click_id = drawn_id → focused).
Proof.
  intros [Hother Hu]%list_elem_of_filter Hkey. cbv zeta.
  assert (Some (id u) ≠ click_id →
          Focus.focusedUserId (Focus.focusOnUser click_id now u st)
          = Some (id u)
          ∧ Markers.user_marker
              (Focus.focusedUserId (Focus.focusOnUser click_id now u st)) u
            = Markers.UserMarker u true
          ∧ MapSurface.center
              (MapSurface.viewport
                 (MapSurface.render
                    (Focus.mapFocusTarget (Focus.focusOnUser click_id now u st))
                    map))
            = (lng u, lat u)) as Hfocus.
  { intros Hclick. unfold Focus.focusOnUser.
    rewrite bool_decide_eq_false_2 by done. simpl.
    split; [done|]. split.
    - unfold Markers.user_marker. by rewrite bool_decide_eq_true_2.
    - unfold MapSurface.render, MapSurface.dependency. simpl.
      by rewrite bool_decide_eq_false_2. }
  split; [done|]. split; [|split].
  - intros Hself. unfold Focus.focusOnUser. by rewrite bool_decide_eq_true_2.
  - exact Hfocus.
  - intros ->. by apply Hfocus.
Qed.

(** B's marker is clicked while the local connection is still "me". *)
Lemma marker_click_focuses_participant_witness :
  Focus.focusedUserId
    (Focus.focusOnUser (Some "me") Sample.clock (Sample.user "B") Focus.initial)
  = Some "B".
Proof.
  refine (proj1 (proj2 (proj2 (proj2
            (marker_click_focuses_participant (Some "me") (Some "me")
               [Sample.user "me"; Sample.user "B"] (Sample.user "B")
               Sample.clock Focus.initial (MapSurface.mount None) _ _)))
            eq_refl)).
  - apply list_elem_of_filter. split; [intros H; discriminate H|].
    right. left.
  - intros H. discriminate H.
Defined.

(** X7. With unique roster ids at most one marker is highlighted, and it
    is never the local one; when the focused id is not in the roster (the
    focused participant has left, or nothing is focused) no marker is
    highlighted at all. *)
Theorem at_most_one_marker_highlighted (me : option LocationUpdate)
    (users : list LiveUser) (focusedUserId socket_id : option string) :
  let highlighted :=
    filter (λ m, Markers.is_focused m = true)
      (Markers.markers me users focusedUserId socket_id) in
  (NoDup (ids users) → (length highlighted ≤ 1)%nat)
  ∧ ((∀ u, u ∈ users → focusedUserId ≠ Some (id u)) → highlighted = [])
  ∧ (∀ m, m ∈ highlighted → ∃ u, m = Markers.UserMarker u true ∧ u ∈ users).
Proof.
  simpl. unfold Markers.markers. rewrite filter_app.
  assert (filter (λ m, Markers.is_focused m = true)
            match me with
            | Some p => [Markers.SelfMarker (lu_lng p) (lu_lat p)]
            | None => []
            end = []) as -> by by destruct me.
  simpl. split; [|split].
  - intros Hids. apply focused_markers_bound.
    rewrite ids_otherUsers. by apply NoDup_filter.
  - intros Hnone. apply no_marker_focused.
    intros u [_ Hu]%list_elem_of_filter. by apply Hnone.
  - intros m [Hm [u [-> [_ Hu]%list_elem_of_filter]]%list_elem_of_fmap]%list_elem_of_filter.
    simpl in Hm. exists u. unfold Markers.user_marker. by rewrite Hm.
Qed.

(** The focused participant has left the roster. *)
Lemma at_most_one_marker_highlighted_witness :
  filter (λ m, Markers.is_focused m = true)
    (Markers.markers (Some Sample.here) [Sample.user "A"; Sample.user "B"]
       (Some "gone") (Some "A")) = [].
Proof.
  refine (proj1 (proj2 (at_most_one_marker_highlighted (Some Sample.here)
                          [Sample.user "A"; Sample.user "B"]
                          (Some "gone") (Some "A"))) _).
  intros u Hu Heq.
  apply elem_of_cons in Hu as [->|Hu]; [discriminate Heq|].
  apply elem_of_cons in Hu as [->|Hu]; [discriminate Heq|].
  by apply elem_of_nil in Hu.
Defined.

(** X8. After any sequence of selections the focus is that of the last
    selection of a participant other than the local one: its id, its
    coordinates and the clock reading of that selection; selections of the
    local participant leave no trace, and nothing ever clears the focus. *)
Theorem focus_is_last_remote_selection (socket_id : option string)
    (st : Focus.State) (selections : list (Z * LiveUser)) :
  Markers.select_all socket_id st selections
  = match last (filter (λ x, Some (id x.2) ≠ socket_id) selections) with
    | Some x =>
      {| Focus.focusedUserId := Some (id x.2);
         Focus.mapFocusTarget :=
           Some {| Focus.ft_lat := lat x.2; Focus.ft_lng := lng x.2;
                   Focus.key := x.1 |} |}
    | None => st
    end.
Proof.
  unfold Markers.select_all.
  induction selections as [|x selections IH] using rev_ind; [done|].
  rewrite foldl_snoc, filter_app, filter_cons, filter_nil.
  unfold Focus.focusOnUser.
  destruct (decide (Some (id x.2) ≠ socket_id)) as [Hother|Hself].
  - by rewrite bool_decide_eq_false_2, last_snoc.
  - rewrite bool_decide_eq_true_2 by by destruct (decide (Some (id x.2) = socket_id)).
    by rewrite app_nil_r.
Qed.

(** X9. Over any sequence of renders, bearing and pitch stay what they
    were and the zoom is either the initial one or Math.max(initial, 15):
    the first focus transition raises the zoom once and later ones only
    move the centre. *)
Theorem renders_raise_zoom_once (st : MapSurface.State)
    (targets : list (option Focus.MapFocusTarget)) :
  let v := MapSurface.viewport st in
  let v' := MapSurface.viewport (Markers.render_all st targets) in
  MapSurface.bearing v' = MapSurface.bearing v
  ∧ MapSurface.pitch v' = MapSurface.pitch v
  ∧ (MapSurface.zoom v' = MapSurface.zoom v
     ∨ MapSurface.zoom v'
       = MapSurface.Math_max (MapSurface.zoom v) MapSurface.num_15).
Proof.
  simpl. unfold Markers.render_all.
  induction targets as [|t targets IH] using rev_ind; [auto|].
  rewrite foldl_snoc. destruct IH as (Hb & Hp & Hz).
  destruct (render_viewport t
              (foldl (λ s t, MapSurface.render t s) st targets))
    as [-> | (tg & _ & ->)]; [auto|].
  simpl. split; [done|]. split; [done|]. right.
  destruct Hz as [-> | ->]; [done|apply Math_max_idem].
Qed.

(** ** The theme *)

Section ThemeFacts.
Import Theme.

Lemma mode_name_inj m1 m2 : mode_name m1 = mode_name m2 → m1 = m2.
Proof. by destruct m1, m2. Qed.

Lemma theme_effect_page m pg :
  localStorage (theme_effect m pg) !! "theme-mode" = Some (mode_name m)
  ∧ colorScheme (theme_effect m pg) = mode_name m
  ∧ ("dark" ∈ classList (theme_effect m pg) ↔ m = dark)
  ∧ ("light" ∈ classList (theme_effect m pg) ↔ m = light)
  ∧ (∀ c, c ≠ "dark" → c ≠ "light" →
       c ∈ classList (theme_effect m pg) ↔ c ∈ classList pg).
Proof.
  unfold theme_effect, classList_toggle. simpl.
  split; [by rewrite lookup_insert_eq|]. split; [done|].
  destruct m; simpl; repeat split; try set_solver.
Qed.

Lemma getInitialThemeMode_stored prefersDark m pg :
  localStorage pg !! "theme-mode" = Some (mode_name m) →
  getInitialThemeMode prefersDark pg = m.
Proof. unfold getInitialThemeMode. intros ->. by destruct m. Qed.

Lemma press_page presses m pg :
  let r := press presses m pg in
  r.1 = Nat.iter presses toggle m
  ∧ localStorage r.2 !! "theme-mode" = Some (mode_name r.1)
  ∧ colorScheme r.2 = mode_name r.1
  ∧ ("dark" ∈ classList r.2 ↔ r.1 = dark)
  ∧ ("light" ∈ classList r.2 ↔ r.1 = light)
  ∧ (∀ c, c ≠ "dark" → c ≠ "light" → c ∈ classList r.2 ↔ c ∈ classList pg).
Proof.
  revert m pg. induction presses as [|n IH]; intros m pg.
  - simpl. split; [done|]. apply theme_effect_page.
  - cbn [press]. destruct (IH (toggle m) (theme_effect m pg))
      as (Hm & Hstore & Hscheme & Hdark & Hlight & Hrest).
    cbv zeta in *. rewrite Hm. split; [by rewrite Nat.iter_succ_r|].
    rewrite <- Hm. split; [done|]. split; [done|]. split; [done|].
    split; [done|]. intros c Hd Hl. rewrite (Hrest c Hd Hl).
    by apply theme_effect_page.
Qed.
End ThemeFacts.

(** X10. The theme survives a reload: after starting up and any number of
    presses of the theme button, a new start of the page with the storage
    left behind shows the mode last shown, whatever colour scheme the
    platform prefers at either start. *)
Theorem theme_survives_reload (prefersDark prefersDark' : bool)
    (presses : nat) (pg : Theme.Page) :
  (Theme.session prefersDark' 0
     (Theme.session prefersDark presses pg).2).1
  = (Theme.session prefersDark presses pg).1.
Proof.
  unfold Theme.session at 1. simpl.
  apply getInitialThemeMode_stored. unfold Theme.session.
  by destruct (press_page presses
                 (Theme.getInitialThemeMode prefersDark (Theme.boot pg))
                 (Theme.boot pg)) as (_ & Hstore & _).
Qed.

(** X11. After starting up and any number of presses, the page carries
    the class of the mode shown and not the class of the other mode, its
    colour scheme and the stored preference name that mode, and the mode
    is the initial one toggled once per press; classes other than dark
    and light are as they were, and the dark class set before the first
    render does not outlive a light preference. *)
Theorem theme_classes_follow_mode (prefersDark : bool) (presses : nat)
    (pg : Theme.Page) :
  let r := Theme.session prefersDark presses pg in
  r.1 = Nat.iter presses Theme.toggle
          (Theme.getInitialThemeMode prefersDark pg)
  ∧ ("dark" ∈ Theme.classList r.2 ↔ r.1 = Theme.dark)
  ∧ ("light" ∈ Theme.classList r.2 ↔ r.1 = Theme.light)
  ∧ Theme.colorScheme r.2 = Theme.mode_name r.1
  ∧ Theme.localStorage r.2 !! "theme-mode" = Some (Theme.mode_name r.1)
  ∧ (∀ c, c ≠ "dark" → c ≠ "light" →
       c ∈ Theme.classList r.2 ↔ c ∈ Theme.classList pg).
Proof.
  simpl. unfold Theme.session.
  destruct (press_page presses
              (Theme.getInitialThemeMode prefersDark (Theme.boot pg))
              (Theme.boot pg))
    as (Hm & Hstore & Hscheme & Hdark & Hlight & Hrest).
  cbv zeta in *. repeat split; try tauto; try done.
  - intros Hc. apply (Hrest c) in Hc; [|done..]. simpl in Hc. set_solver.
  - intros Hc. apply (Hrest c); [done..|]. simpl. set_solver.
Qed.

(** ** Geolocation: errors, watches and the manual retry *)

Section WatchFacts.
Import Geo.

Lemma geolocationErrorMessage_nonempty err : geolocationErrorMessage err ≠ "".
Proof.
  unfold geolocationErrorMessage. repeat case_bool_decide; done.
Qed.

Lemma onPositionError_shows err s :
  Retry.shows_error (geoError (onPositionError err s)).
Proof.
  unfold onPositionError.
  destruct (bool_decide (code err = 3) && negb (fallbackMode s)).
  - done.
  - unfold clearRetryTimeout. simpl.
    destruct (geoRetryTimeoutRef s); apply geolocationErrorMessage_nonempty.
Qed.

Lemma onPosition_hides now la ln s :
  ¬ Retry.shows_error (geoError (onPosition now la ln s)).
Proof.
  unfold onPosition, clearRetryTimeout. simpl.
  destruct (geoError s) as [e|] eqn:He; simpl;
    destruct (geoRetryTimeoutRef s); simpl;
    repeat case_bool_decide; simpl; rewrite ?He; simpl;
    repeat case_bool_decide; simpl; naive_solver.
Qed.

(** An error never hands anything to the socket nor moves the throttle. *)
Lemma onPositionError_silent err s :
  emitted (onPositionError err s) = emitted s
  ∧ lastSentAt (onPositionError err s) = lastSentAt s.
Proof.
  unfold onPositionError, clearRetryTimeout, startWatch. simpl.
  destruct (bool_decide (code err = 3) && negb (fallbackMode s)); simpl;
    [done|]. by destruct (geoRetryTimeoutRef s).
Qed.

Lemma cleanup_frame s :
  emitted (cleanup s) = emitted s ∧ lastSentAt (cleanup s) = lastSentAt s
  ∧ isGeoRetrying (cleanup s) = isGeoRetrying s
  ∧ pendingTimeouts (cleanup s) = pendingTimeouts s
  ∧ geoError (cleanup s) = geoError s.
Proof. unfold cleanup. by case_bool_decide. Qed.

Lemma activate_frame supported secure s :
  emitted (activate supported secure s) = emitted s
  ∧ lastSentAt (activate supported secure s) = lastSentAt s
  ∧ isGeoRetrying (activate supported secure s) = isGeoRetrying s
  ∧ pendingTimeouts (activate supported secure s) = pendingTimeouts s
  ∧ geoError (activate supported secure s) = geoError s.
Proof. unfold activate. by destruct (negb supported || negb secure). Qed.

(** The watches active after an activation has handled [evs]. *)
Lemma run_from_high_watches s evs :
  fallbackMode s = false →
  let s' := run s evs in
  if fallbackMode s'
  then watchId s' = next_handle (navigator s)
       ∧ watches (navigator s')
         = <[ watchId s' := fallback_tier ]>
             (delete (watchId s) (watches (navigator s)))
  else navigator s' = navigator s ∧ watchId s' = watchId s.
Proof.
  intros Hmode. simpl. unfold run.
  induction evs as [|ev evs IH] using rev_ind.
  - simpl. by rewrite Hmode.
  - rewrite foldl_snoc.
    destruct (fallbackMode (foldl step s evs)) eqn:Hprev.
    + destruct (step_in_fallback _ ev Hprev) as (Hfb & Hnav & Hid).
      by rewrite Hfb, Hnav, Hid.
    + destruct IH as [Hnav Hid].
      destruct (is_timeout ev) eqn:Hev.
      * destruct ev as [|err]; [done|]. apply bool_decide_eq_true in Hev.
        change (step (foldl step s evs) (PositionError err))
          with (onPositionError err (foldl step s evs)).
        unfold onPositionError.
        rewrite Hprev, bool_decide_eq_true_2 by done. simpl.
        by rewrite Hnav, Hid.
      * destruct (step_in_high _ ev Hprev Hev) as (-> & -> & ->). done.
Qed.
(** No event lowers the next handle. *)
Lemma run_next_handle s evs :
  next_handle (navigator s) ≤ next_handle (navigator (run s evs)).
Proof.
  unfold run. induction evs as [|ev evs IH] using rev_ind; [simpl; lia|].
  rewrite foldl_snoc. etrans; [exact IH|].
  destruct ev as [now la ln|err].
  - change (step (foldl step s evs) (Position now la ln))
      with (onPosition now la ln (foldl step s evs)).
    destruct (onPosition_frame now la ln (foldl step s evs)) as (_ & _ & Hnav).
    simpl in Hnav. rewrite Hnav. lia.
  - change (step (foldl step s evs) (PositionError err))
      with (onPositionError err (foldl step s evs)).
    unfold onPositionError.
    destruct (bool_decide (code err = 3) && negb (fallbackMode _)); simpl; [lia|].
    unfold clearRetryTimeout. destruct (geoRetryTimeoutRef _); simpl; lia.
Qed.

(** What the cleanup leaves of an activation that has handled [evs]. *)
Lemma cleanup_after_run s0 evs :
  Retry.fresh_handles (navigator s0) →
  let nav := navigator (cleanup (run (activate true true s0) evs)) in
  watches nav = watches (navigator s0)
  ∧ next_handle (navigator s0) < next_handle nav.
Proof.
  intros [Hpos Hfresh].
  destruct (activate_starts_high s0) as (Hmode & _ & _).
  pose proof (run_from_high_watches _ evs Hmode) as Hrun.
  pose proof (run_from_high _ evs Hmode) as [_ Hcalls]. cbv zeta in *.
  set (s := activate true true s0) in *.
  assert (watchId s = next_handle (navigator s0)) as Hid by done.
  assert (next_handle (navigator s) = next_handle (navigator s0) + 1)
    as Hnext by done.
  assert (watches (navigator s)
          = <[ next_handle (navigator s0) := high_accuracy_tier ]>
              (watches (navigator s0))) as Hw by done.
  clearbody s. unfold cleanup.
  destruct (fallbackMode (run s evs)) eqn:Hfb.
  - destruct Hrun as [Hid' Hw']. rewrite Hnext in Hid'.
    rewrite bool_decide_eq_true_2 by lia. simpl. split.
    + rewrite Hw', delete_insert_eq, Hid, Hw, delete_insert_eq.
      rewrite Hid', !delete_id; [done|apply Hfresh; lia|].
      rewrite delete_id by (apply Hfresh; lia). apply Hfresh. lia.
    + pose proof (run_next_handle s evs) as Hge. lia.
  - destruct Hrun as [Hnav Hid']. rewrite Hid', Hid, Hnav.
    rewrite bool_decide_eq_true_2 by lia. simpl. split; [|lia].
    rewrite Hw, delete_insert_eq. apply delete_id, Hfresh. lia.
Qed.
End WatchFacts.

(** X12. Every error the watch or the one-shot request reports puts a
    non-empty message in the error state, the notice of the downgrade
    included, so the error panel shows; every position fix, from the watch
    or from the one-shot request, leaves the error state empty, so the
    panel gives way to the coordinates. *)
Theorem error_shows_until_next_fix :
  (∀ err s, Retry.shows_error (Geo.geoError (Geo.onPositionError err s)))
  ∧ (∀ permissions err g,
       Retry.shows_error (Geo.geoError (Retry.onOneShotError permissions err g)))
  ∧ (∀ now la ln s,
       ¬ Retry.shows_error (Geo.geoError (Geo.onPosition now la ln s)))
  ∧ (∀ now la ln g,
       Geo.geoError (Retry.onOneShotPosition now la ln g) = None).
Proof.
  split; [apply onPositionError_shows|]. split; [|split].
  - intros permissions err g. unfold Retry.onOneShotError.
    destruct (Retry.isGeolocationBlockedByBrowser permissions); simpl;
      [done|apply geolocationErrorMessage_nonempty].
  - apply onPosition_hides.
  - intros now la ln g. unfold Retry.onOneShotPosition, Geo.clearRetryTimeout.
    simpl. case_bool_decide; simpl; by destruct (Geo.geoRetryTimeoutRef g).
Qed.

(** X13. An activation leaves no watch behind: on a platform that hands
    out fresh, non-negative handles, after the effect has started, handled
    any sequence of positions and errors (downgrade included) and been
    cleaned up, the active watches are exactly those there were before. *)
Theorem activation_releases_its_watch (s0 : Geo.State) (evs : list Geo.Event) :
  Retry.fresh_handles (Geo.navigator s0) →
  Geo.watches
    (Geo.navigator (Geo.cleanup (Geo.run (Geo.activate true true s0) evs)))
  = Geo.watches (Geo.navigator s0).
Proof.
  intros Hfresh.
  destruct (cleanup_after_run s0 evs Hfresh) as [Hwatches _].
  exact Hwatches.
Qed.

(** A timeout, then a fix, then the cleanup. *)
Lemma activation_releases_its_watch_witness :
  Geo.watches
    (Geo.navigator
       (Geo.cleanup
          (Geo.run (Geo.activate true true (Geo.initial true true Sample.nav))
             [Geo.PositionError Sample.timeout_error;
              Geo.sample_event (Sample.clock, Sample.here)])))
  = ∅.
Proof.
  refine (activation_releases_its_watch (Geo.initial true true Sample.nav)
            [Geo.PositionError Sample.timeout_error;
             Geo.sample_event (Sample.clock, Sample.here)] _).
  split; [simpl; lia|]. intros h _. apply lookup_empty.
Defined.

(** X14. At mount, either the platform supports geolocation in a secure
    context, no error is shown and exactly one watch is started, in the
    high-accuracy tier; or it does not, no watch is started and an error
    is shown from the first render. *)
Theorem watch_starts_unless_error_shown (supported secure : bool)
    (nav : Geo.Navigator) :
  let s := Geo.activate supported secure (Geo.initial supported secure nav) in
  if supported && secure
  then Geo.geoError s = None
       ∧ Geo.calls (Geo.navigator s)
         = Geo.calls nav
           ++ [Geo.WatchPosition (Geo.next_handle nav) Geo.high_accuracy_tier]
       ∧ Geo.watchId s = Geo.next_handle nav
  else Retry.shows_error (Geo.geoError s) ∧ Geo.navigator s = nav
       ∧ Geo.watchId s = -1.
Proof. by destruct supported, secure. Qed.

Section RetryFacts.
Import Retry.

(** What the click handler leaves of the throttle and of the watch. *)
Lemma retryGeolocation_frame supported secure st :
  let g' := geo (retryGeolocation supported secure st) in
  Geo.emitted g' = Geo.emitted (geo st)
  ∧ Geo.lastSentAt g' = Geo.lastSentAt (geo st)
  ∧ Geo.navigator g' = Geo.navigator (geo st)
  ∧ Geo.watchId g' = Geo.watchId (geo st).
Proof.
  unfold retryGeolocation.
  destruct (Geo.isGeoRetrying (geo st)); [done|].
  by destruct (Geo.getInitialGeoError supported secure).
Qed.

Lemma click_frame supported secure st :
  Geo.emitted (geo (click supported secure st)) = Geo.emitted (geo st)
  ∧ Geo.lastSentAt (geo (click supported secure st)) = Geo.lastSentAt (geo st).
Proof.
  destruct (retryGeolocation_frame supported secure st) as (Hem & Hlast & _).
  cbv zeta in *. unfold click.
  set (st' := retryGeolocation supported secure st) in *.
  case_bool_decide; [done|]. cbn [with_geo geo].
  destruct (activate_frame supported secure (Geo.cleanup (geo st')))
    as (-> & -> & _).
  by destruct (cleanup_frame (geo st')) as (-> & -> & _).
Qed.

Lemma onOneShotPosition_throttle now la ln g :
  let g' := onOneShotPosition now la ln g in
  Geo.emitted g'
  = Geo.emitted g
    ++ (if bool_decide (2000 ≤ now - Geo.lastSentAt g)
        then [{| lu_lat := la; lu_lng := ln |}] else [])
  ∧ Geo.lastSentAt g'
    = (if bool_decide (2000 ≤ now - Geo.lastSentAt g) then now
       else Geo.lastSentAt g)
  ∧ Geo.isGeoRetrying g' = false
  ∧ Geo.geoRetryTimeoutRef g' = None.
Proof.
  unfold onOneShotPosition, Geo.clearRetryTimeout. simpl.
  repeat case_bool_decide; try lia; simpl;
    destruct (Geo.geoRetryTimeoutRef g) eqn:Href; simpl;
    by rewrite ?app_nil_r.
Qed.

(** An event either hands nothing to the socket and leaves the throttle,
    or reads the clock at least 2000 ms after the last transmission, hands
    one update over and records its reading. *)
Lemma step_transmits supported secure st ev :
  let st' := step supported secure st ev in
  (length (Geo.emitted (geo st')) = length (Geo.emitted (geo st))
   ∧ Geo.lastSentAt (geo st') = Geo.lastSentAt (geo st))
  ∨ (∃ now, clock_of ev = Some now
            ∧ length (Geo.emitted (geo st')) ≠ length (Geo.emitted (geo st))
            ∧ Geo.lastSentAt (geo st') = now
            ∧ 2000 ≤ now - Geo.lastSentAt (geo st)).
Proof.
  destruct ev as [[now la ln|err]| |now la ln|permissions err|h]; simpl.
  - destruct (onPosition_throttle now la ln (geo st)) as (_ & Hem & Hlast).
    simpl in Hem, Hlast. rewrite Hem, Hlast.
    case_bool_decide; [right|left].
    + exists now. rewrite length_app. simpl. repeat split; [lia|done].
    + by rewrite app_nil_r.
  - left. by destruct (onPositionError_silent err (geo st)) as [-> ->].
  - left. by destruct (click_frame supported secure st) as [-> ->].
  - destruct (onOneShotPosition_throttle now la ln (geo st))
      as (Hem & Hlast & _).
    simpl in Hem, Hlast. rewrite Hem, Hlast.
    case_bool_decide; [right|left].
    + exists now. rewrite length_app. simpl. repeat split; [lia|done].
    + by rewrite app_nil_r.
  - left. unfold onOneShotError.
    by destruct (isGeolocationBlockedByBrowser permissions).
  - left. unfold onRetryTimer. by case_bool_decide.
Qed.
End RetryFacts.

(** X15. The throttle is shared by the watch and the manual retry: over
    any sequence of watch samples, watch errors, retry clicks, one-shot
    fixes and errors and timer expiries, the clock readings of the
    transmitted updates are each at least 2000 ms after the one before,
    the first at least 2000 ms after the last transmission recorded at
    the start. *)
Theorem transmissions_are_spaced (supported secure : bool)
    (st : Retry.State) (evs : list Retry.Event) :
  Retry.spaced_from (Geo.lastSentAt (Retry.geo st))
    (Retry.transmission_times supported secure st evs).
Proof.
  revert st. induction evs as [|ev evs IH]; intros st; [done|].
  cbn [Retry.transmission_times].
  destruct (step_transmits supported secure st ev)
    as [[Hlen Hlast]|(now & Hclock & Hlen & Hlast & Hgap)]; cbv zeta in *.
  - rewrite <- Hlast.
    destruct (Retry.clock_of ev); [|apply IH].
    rewrite bool_decide_eq_true_2 by done. apply IH.
  - rewrite Hclock, bool_decide_eq_false_2 by done.
    split; [done|]. rewrite <- Hlast. apply IH.
Qed.

(** X16. A manual retry, when none is in flight and the platform supports
    geolocation in a secure context, issues one one-shot request with
    (high accuracy, timeout 10000, maximumAge 0), arms the 12-second timer
    and shows the spinner, and restarts the watch in the high-accuracy
    tier even after a downgrade; started from an activation on a platform
    with fresh handles, it leaves exactly one watch of its own active. *)
Theorem retry_restarts_high_accuracy (st : Retry.State) :
  Geo.isGeoRetrying (Retry.geo st) = false →
  let st' := Retry.click true true st in
  Geo.isGeoRetrying (Retry.geo st') = true
  ∧ Retry.requests st' = Retry.requests st ++ [Retry.one_shot_options]
  ∧ Geo.geoRetryTimeoutRef (Retry.geo st') = Some (Retry.next_timer st)
  ∧ Retry.next_timer st ∈ Geo.pendingTimeouts (Retry.geo st')
  ∧ Geo.fallbackMode (Retry.geo st') = false
  ∧ Geo.current_options (Retry.geo st') = Some Geo.high_accuracy_tier
  ∧ (∀ g0 evs,
       Retry.fresh_handles (Geo.navigator g0) →
       Retry.geo st = Geo.run (Geo.activate true true g0) evs →
       Geo.watches (Geo.navigator (Retry.geo st'))
       = <[ Geo.watchId (Retry.geo st') := Geo.high_accuracy_tier ]>
           (Geo.watches (Geo.navigator g0))).
Proof.
  intros Hidle. simpl. unfold Retry.click, Retry.retryGeolocation.
  rewrite Hidle. simpl. rewrite bool_decide_eq_false_2 by lia.
  cbn [Retry.with_geo Retry.geo Retry.requests].
  set (g := Geo.set_geoRetryTimeoutRef _ _).
  destruct (activate_frame true true (Geo.cleanup g)) as (_ & _ & Hr & Hp & _).
  destruct (cleanup_frame g) as (_ & _ & Hr' & Hp' & _).
  destruct (activate_starts_high (Geo.cleanup g)) as (Hmode & Hopts & _).
  cbv zeta in *.
  split; [by rewrite Hr, Hr'|]. split; [done|].
  split; [subst g; unfold Geo.cleanup; simpl; by case_bool_decide|].
  split; [rewrite Hp, Hp'; subst g; simpl; set_solver|].
  split; [done|]. split; [done|].
  intros g0 evs Hfresh Hgeo.
  assert (Geo.navigator (Geo.cleanup g)
          = Geo.navigator (Geo.cleanup (Retry.geo st))) as Hnav
    by (subst g; unfold Geo.cleanup; simpl; by case_bool_decide).
  destruct (cleanup_after_run g0 evs Hfresh) as [Hw _].
  cbv zeta in Hw. rewrite <- Hgeo, <- Hnav in Hw.
  unfold Geo.activate, Geo.startWatch. simpl. by rewrite Hw.
Qed.

(** A retry after the first activation has been downgraded. *)
Lemma retry_restarts_high_accuracy_witness :
  let st :=
    {| Retry.geo :=
         Geo.run (Geo.activate true true (Geo.initial true true Sample.nav))
           [Geo.PositionError Sample.timeout_error];
       Retry.geoRetryNonce := 0; Retry.next_timer := 1;
       Retry.requests := [] |} in
  Geo.fallbackMode (Retry.geo st) = true
  ∧ Geo.fallbackMode (Retry.geo (Retry.click true true st)) = false.
Proof.
  intros st. split; [vm_compute; reflexivity|].
  assert (Geo.isGeoRetrying (Retry.geo st) = false) as Hidle
    by (vm_compute; reflexivity).
  destruct (retry_restarts_high_accuracy st Hidle) as (_ & _ & _ & _ & Hmode & _).
  exact Hmode.
Defined.

Section SpinnerFacts.
Import Retry.

Lemma onPosition_ends_retry now la ln g :
  Geo.isGeoRetrying (Geo.onPosition now la ln g) = false.
Proof.
  unfold Geo.onPosition, Geo.clearRetryTimeout. simpl.
  destruct (Geo.geoRetryTimeoutRef g); simpl; by case_bool_decide.
Qed.

Lemma onPositionError_retry err g :
  let g' := Geo.onPositionError err g in
  Geo.isGeoRetrying g' = false
  ∨ (Geo.isGeoRetrying g' = Geo.isGeoRetrying g
     ∧ Geo.pendingTimeouts g' = Geo.pendingTimeouts g).
Proof.
  unfold Geo.onPositionError.
  destruct (bool_decide (Geo.code err = 3) && negb (Geo.fallbackMode g)).
  - by right.
  - left. unfold Geo.clearRetryTimeout. simpl.
    by destruct (Geo.geoRetryTimeoutRef g).
Qed.

Lemma click_spinner_backed supported secure st :
  spinner_backed (geo st) → spinner_backed (geo (click supported secure st)).
Proof.
  intros Hinv. unfold click.
  set (st' := retryGeolocation supported secure st).
  assert (spinner_backed (geo st')) as Hst'.
  { subst st'. unfold retryGeolocation.
    destruct (Geo.isGeoRetrying (geo st)) eqn:Hretry; [done|].
    destruct (Geo.getInitialGeoError supported secure); [done|].
    intros _. simpl. set_solver. }
  case_bool_decide; [done|]. cbn [with_geo geo].
  destruct (activate_frame supported secure (Geo.cleanup (geo st')))
    as (_ & _ & Hr & Hp & _).
  destruct (cleanup_frame (geo st')) as (_ & _ & Hr' & Hp' & _).
  unfold spinner_backed in *. by rewrite Hr, Hp, Hr', Hp'.
Qed.

Lemma step_spinner_backed supported secure st ev :
  spinner_backed (geo st) → spinner_backed (geo (step supported secure st ev)).
Proof.
  intros Hinv.
  destruct ev as [[now la ln|err]| |now la ln|permissions err|h];
    cbn [step with_geo geo Geo.step].
  - unfold spinner_backed. by rewrite onPosition_ends_retry.
  - unfold spinner_backed in *.
    destruct (onPositionError_retry err (geo st)) as [->|[-> ->]]; done.
  - by apply click_spinner_backed.
  - unfold spinner_backed.
    by destruct (onOneShotPosition_throttle now la ln (geo st))
      as (_ & _ & -> & _).
  - unfold spinner_backed, onOneShotError.
    by destruct (isGeolocationBlockedByBrowser permissions).
  - unfold onRetryTimer. by case_bool_decide.
Qed.
End SpinnerFacts.

(** X17. The retry spinner cannot get stuck: if it shows only while a
    retry timer is pending (as at mount, where it does not show), then
    after any sequence of clicks, watch events, one-shot results and timer
    expiries it still shows only while a timer is pending, and the expiry
    of any pending timer hides it. *)
Theorem retry_spinner_never_stuck (supported secure : bool)
    (st : Retry.State) (evs : list Retry.Event) :
  Retry.spinner_backed (Retry.geo st) →
  let st' := Retry.run supported secure st evs in
  Retry.spinner_backed (Retry.geo st')
  ∧ (∀ h, h ∈ Geo.pendingTimeouts (Retry.geo st') →
       Geo.isGeoRetrying
         (Retry.geo (Retry.step supported secure st' (Retry.TimerFired h)))
       = false).
Proof.
  intros Hinv. simpl. split.
  - unfold Retry.run.
    induction evs as [|ev evs IH] using rev_ind; [done|].
    rewrite foldl_snoc. by apply step_spinner_backed.
  - intros h Hh. simpl. unfold Retry.onRetryTimer.
    by rewrite bool_decide_eq_true_2.
Qed.

(** A click at mount, then the error of the one-shot request, then a
    second click. *)
Lemma retry_spinner_never_stuck_witness :
  let st :=
    {| Retry.geo := Geo.activate true true (Geo.initial true true Sample.nav);
       Retry.geoRetryNonce := 0; Retry.next_timer := 1;
       Retry.requests := [] |} in
  Retry.spinner_backed
    (Retry.geo
       (Retry.run true true st
          [Retry.Click; Retry.OneShotError None Sample.timeout_error;
           Retry.Click])).
Proof.
  intros st.
  refine (proj1 (retry_spinner_never_stuck true true st
                   [Retry.Click; Retry.OneShotError None Sample.timeout_error;
                    Retry.Click] _)).
  intros Hretry. discriminate Hretry.
Defined.

(** ** Endpoint resolution, away from development *)

(** X18. A configured URL that parses and whose host is none of
    localhost, 127.0.0.1 and ::1 is used as it serialises from every page
    and outside a browser alike, and so is a configured string that does
    not parse: away from loopback hosts the endpoint does not depend on
    where the page was loaded from. *)
Theorem configured_endpoint_ignores_page (trim : string → string)
    (parseURL : string → option Endpoint.URL) (env : option string)
    (s : string) (window : option Endpoint.Location) :
  Endpoint.configured trim env = Some s →
  match parseURL s with
  | Some u => ¬ Endpoint.loopback (Endpoint.url_hostname u)
  | None => True
  end →
  Endpoint.resolveSocketUrl trim parseURL env window
  = match parseURL s with
    | Some u => Endpoint.url_toString u
    | None => s
    end.
Proof.
  unfold Endpoint.configured, Endpoint.resolveSocketUrl.
  destruct env as [raw|]; simpl; [|done].
  case_bool_decide; [done|]. intros [= ->].
  destruct (parseURL s) as [u|]; [|done].
  intros Hhost. destruct window as [page|]; [|done].
  destruct (Endpoint.isLocalhost u) eqn:Hloop; [|done].
  by apply isLocalhost_loopback in Hloop.
Qed.

(** A deployed backend, the page opened from another device. *)
Lemma configured_endpoint_ignores_page_witness :
  Endpoint.resolveSocketUrl Endpoint.ascii_trim Endpoint.sample_parseURL
    (Some "https://map.example.org")
    (Some {| Endpoint.origin := "http://192.168.1.20:5173";
             Endpoint.hostname := "192.168.1.20" |})
  = "https://map.example.org/".
Proof.
  refine (configured_endpoint_ignores_page Endpoint.ascii_trim
            Endpoint.sample_parseURL (Some "https://map.example.org")
            "https://map.example.org" _ eq_refl _).
  simpl. intros [H|[H|H]]; discriminate H.
Defined.
